(** * RGB Simple Communication: the colour-transition codec of rgb-simple-comm.c

    A shallow embedding of the encoder ([nextColourSeq_from_2bit],
    [toColourSeq_uint8]) and of the decoder ([nextColourSeq_to_2bit],
    [fromColourSeq_get_uint8]), followed by the properties of the codec.

    Conventions of the embedding:
    - C integers are [Z]; a conversion to [uint8_t] or [unsigned int] is written
      out as [uint8] / [uint32] where the C program performs one;
    - the [%] of two [int]s is [Z.rem] (truncation), the [%] of two
      [unsigned int]s is [Z.modulo];
    - a colour buffer [rgb_colour_t colourSeq[]] is a [list rgb_colour]; an
      access outside the buffer, a read of an indeterminate object and a signed
      overflow are undefined behaviour and make the computation [None];
    - an out-parameter ([*seq_ptr], [*output], [*halfnibble_out]) is passed in
      and returned explicitly. *)

From Stdlib Require Import ZArith Lia.
From stdpp Require Import base decidable option list strings.

Local Open Scope Z_scope.

(** ** Data model *)

Inductive rgb_colour : Type :=
  | DARK
  | BLUE
  | GREEN
  | CYAN
  | RED
  | MAGENTA
  | YELLOW
  | WHITE.

#[global] Instance rgb_colour_eq_dec : EqDecision rgb_colour.
Proof. solve_decision. Defined.

(** The numeric value of each enumerator. *)
Definition rgb_colour_value (c : rgb_colour) : Z :=
  match c with
  | DARK => 0
  | BLUE => 1
  | GREEN => 2
  | CYAN => 3
  | RED => 4
  | MAGENTA => 5
  | YELLOW => 6
  | WHITE => 7
  end.

(** ** Machine integers *)

Definition uint8 (z : Z) : Z := z mod 256.
Definition uint32 (z : Z) : Z := z mod 4294967296.
Definition INT_MAX : Z := 2147483647.

(** [j++] on an [int]: overflow is undefined. *)
Definition int_incr (j : Z) : option Z :=
  if j <? INT_MAX then Some (j + 1) else None.

(** ** Colour buffers *)

Definition load (colourSeq : list rgb_colour) (i : Z) : option rgb_colour :=
  if 0 <=? i then colourSeq !! Z.to_nat i else None.

Definition store (colourSeq : list rgb_colour) (i : Z) (c : rgb_colour)
  : option (list rgb_colour) :=
  if (0 <=? i) && (i <? Z.of_nat (length colourSeq))
  then Some (<[Z.to_nat i := c]> colourSeq)
  else None.

(** ** ENCODE *)

(** 5 colour states for transmitting 2 bits without separate clock. *)
Definition halfByteColour : list rgb_colour :=
  [BLUE; GREEN; CYAN; RED; MAGENTA].

Definition nextColourSeq_from_2bit (halfnibble : Z) (previous_colour : rgb_colour)
  : option rgb_colour :=
  (* Guard *)
  let halfnibble := uint8 (Z.land halfnibble 3) in
  (* Find Offset *)
  let offset :=
    match previous_colour with
    | DARK => 0
    | BLUE => 1
    | GREEN => 2
    | CYAN => 3
    | RED => 4
    | MAGENTA => 5
    | YELLOW => 0
    | WHITE => 0
    end in
  (* Returns the next colour in sequence *)
  halfByteColour !! Z.to_nat (uint32 (halfnibble + offset) mod 5).

(** The body of [for (int i = 0; i < 4; i++)]; [n] counts the iterations that
    remain, so the loop is entered with [n = 4] and [i = 0]. *)
Fixpoint toColourSeq_loop (n : nat) (i : Z) (input : Z)
    (colourSeq : list rgb_colour) (j : Z) (previous_colour : rgb_colour)
  : option (list rgb_colour * Z) :=
  match n with
  | O => Some (colourSeq, j)
  | S n' =>
      let half_nibble := Z.land (Z.shiftr input (2 * (3 - i))) 3 in
      c ← nextColourSeq_from_2bit (uint8 half_nibble) previous_colour;
      colourSeq ← store colourSeq j c;
      previous_colour ← load colourSeq j;
      j ← int_incr j;
      toColourSeq_loop n' (i + 1) input colourSeq j previous_colour
  end.

(** Returns the buffer after the call and the new [*seq_ptr]. *)
Definition toColourSeq_uint8 (input : Z) (colourSeq : list rgb_colour)
    (seq_ptr : Z) : option (list rgb_colour * Z) :=
  let j := seq_ptr in
  previous_colour ← (if j =? 0 then Some DARK else load colourSeq (j - 1));
  (* Data *)
  '(colourSeq, j) ← toColourSeq_loop 4 0 input colourSeq j previous_colour;
  (* Mark *)
  colourSeq ← store colourSeq j WHITE;
  j ← int_incr j;
  Some (colourSeq, j).

(** ** DECODE *)

(** Returns the return code and the contents of [*halfnibble_out] after the
    call; [halfnibble_out] is its contents before ([None]: indeterminate). *)
Definition nextColourSeq_to_2bit (incoming_colour previous_colour : rgb_colour)
    (halfnibble_out : option Z) : Z * option Z :=
  if decide (incoming_colour = previous_colour) then (-1, halfnibble_out)
  else
    (* Find Offset *)
    let offset :=
      match previous_colour with
      | DARK => 0
      | BLUE => 1
      | GREEN => 2
      | CYAN => 3
      | RED => 4
      | MAGENTA => 5
      | YELLOW => 0
      | WHITE => 0
      end in
    (* Corresponding Nibble Base: [inl] is an early [return] *)
    let nibblebase : Z + Z :=
      match incoming_colour with
      | DARK => inl (-2)
      | BLUE => inr 0
      | GREEN => inr 1
      | CYAN => inr 2
      | RED => inr 3
      | MAGENTA => inr 4
      | YELLOW => inl 2
      | WHITE => inl 1
      end in
    match nibblebase with
    | inl return_code => (return_code, halfnibble_out)
    | inr nibblebase =>
        let halfnibble :=
          if offset <=? nibblebase
          then uint8 (Z.rem (nibblebase - offset) 4)
          else uint8 (Z.rem (5 + nibblebase - offset) 4) in
        (0, Some (Z.land halfnibble 3))
    end.

(** The body of [for (int i = 0; i < 5; i++)] and the [return 0] after it;
    [n] counts the iterations that remain.  The result is the return code, the
    new [*seq_ptr] and the new [*output]. *)
Fixpoint fromColourSeq_loop (n : nat) (colourSeq : list rgb_colour)
    (seq_ptr : Z) (previous_colour : rgb_colour) (output : Z)
  : option (Z * Z * Z) :=
  match n with
  | O => Some (0, seq_ptr, output)
  | S n' =>
      incoming_colour ← load colourSeq seq_ptr;
      let '(return_code, halfnibble_out) :=
        nextColourSeq_to_2bit incoming_colour previous_colour None in
      let previous_colour := incoming_colour in
      seq_ptr ← int_incr seq_ptr;
      if return_code =? 2 then Some (1, seq_ptr, output)
      else if return_code =? 1 then Some (1, seq_ptr, output)
      else if return_code =? 0 then
        halfnibble_out ← halfnibble_out;
        let output := uint8 (Z.shiftl output 2) in
        let output := uint8 (Z.lor output halfnibble_out) in
        fromColourSeq_loop n' colourSeq seq_ptr previous_colour output
      else if return_code =? -1 then
        fromColourSeq_loop n' colourSeq seq_ptr previous_colour output
      else if return_code =? -2 then Some (-1, seq_ptr, output)
      else fromColourSeq_loop n' colourSeq seq_ptr previous_colour output
  end.

Definition fromColourSeq_get_uint8 (colourSeq : list rgb_colour) (seq_ptr : Z)
  : option (Z * Z * Z) :=
  previous_colour ←
    (if seq_ptr =? 0 then Some DARK else load colourSeq (seq_ptr - 1));
  (* Extract next 8bit from stream *)
  let output := 0 in
  fromColourSeq_loop 5 colourSeq seq_ptr previous_colour output.

(** ** Drivers

    [main] fills one buffer by successive calls of [toColourSeq_uint8] on the
    same cursor, then reads it back by successive calls of
    [fromColourSeq_get_uint8] on a second cursor. *)

Fixpoint encode_bytes (inputs : list Z) (colourSeq : list rgb_colour) (j : Z)
  : option (list rgb_colour * Z) :=
  match inputs with
  | [] => Some (colourSeq, j)
  | input :: inputs' =>
      '(colourSeq, j) ← toColourSeq_uint8 input colourSeq j;
      encode_bytes inputs' colourSeq j
  end.

(** [n] calls of the decoder; each call is recorded as its return code, the
    cursor it leaves and the byte it stores in [*output]. *)
Fixpoint decode_bytes (n : nat) (colourSeq : list rgb_colour) (k : Z)
  : option (list (Z * Z * Z)) :=
  match n with
  | O => Some []
  | S n' =>
      '(return_code, k, output) ← fromColourSeq_get_uint8 colourSeq k;
      calls ← decode_bytes n' colourSeq k;
      Some ((return_code, k, output) :: calls)
  end.

(** ** Helper macros for setting bitflags

    The program applies the macros to no variable.  They are modelled on an
    [unsigned int] variable, the type of [1u]; the result is the value of the
    macro for [GETBIT] and the new value of the variable for the others.
    [1u << BITPOS] is undefined unless [0 <= BITPOS < 32]. *)

Definition bit_mask (BITPOS : Z) : option Z :=
  if (0 <=? BITPOS) && (BITPOS <? 32)
  then Some (uint32 (Z.shiftl 1 BITPOS))
  else None.

Definition GETBIT (VARIABLE BITPOS : Z) : option Z :=
  mask ← bit_mask BITPOS; Some (Z.land VARIABLE mask).

Definition SETBIT (VARIABLE BITPOS : Z) : option Z :=
  mask ← bit_mask BITPOS; Some (uint32 (Z.lor VARIABLE mask)).

Definition CLRBIT (VARIABLE BITPOS : Z) : option Z :=
  mask ← bit_mask BITPOS;
  Some (uint32 (Z.land VARIABLE (uint32 (Z.lnot mask)))).

Definition TOGBIT (VARIABLE BITPOS : Z) : option Z :=
  mask ← bit_mask BITPOS; Some (uint32 (Z.lxor VARIABLE mask)).

(** ** TEST TOOLS *)

(** Colour String *)
Definition rgb_colour_str : list string :=
  ["Dark"; "Blue"; "Green"; "Cyan"; "Red"; "Magenta"; "Yellow"; "White"].

(** Colour Short Version *)
Definition rgb_colour_short_str : list string :=
  ["D"; "B"; "G"; "C"; "R"; "M"; "Y"; "W"].

(** Colour Short Version Marked *)
Definition rgb_colour_short_marked_str : list string :=
  ["_D_"; " B "; " G "; " C "; " R "; " M "; "!Y!"; "|W|"].

(** [table[colour]], as [main] indexes the three tables. *)
Definition colour_string (table : list string) (c : rgb_colour)
  : option string :=
  table !! Z.to_nat (rgb_colour_value c).

(** A call of [printf]: the format string and the arguments after it. *)
Inductive printf_call : Type :=
  | Printf (format : string) (args : list Z).

#[global] Instance printf_call_eq_dec : EqDecision printf_call.
Proof. solve_decision. Defined.

(** The body of [for (i = 8 - 1; i >= 0; i--)]; [n] counts the iterations that
    remain, so [i = n - 1] and the loop is entered with [n = 8]. *)
Fixpoint displayBinary_loop (n : nat) (input : Z) : list printf_call :=
  match n with
  | O => []
  | S n' =>
      let i := Z.of_nat n' in
      (if Z.land (Z.shiftr input i) 1 =? 0
       then Printf "0" []
       else Printf "1" [])
      :: displayBinary_loop n' input
  end.

(** Returns the calls of [printf] in order, and the value returned. *)
Definition displayBinary_uint8_t (input : Z) : list printf_call * Z :=
  ([Printf " %x '%c' = " [input; input]]
   ++ displayBinary_loop 8 input
   ++ [Printf (String (Ascii.ascii_of_nat 10) EmptyString) []],
   input).

(** ** Vocabulary of the statements *)

(** The five data colours, in cycle order. *)
Definition is_data_colour (c : rgb_colour) : Prop := c ∈ halfByteColour.

Definition is_mark (c : rgb_colour) : Prop := c = WHITE \/ c = YELLOW.

(** The colour a call finds before its cursor when the cursor stands at the
    end of [pre]: Dark at cursor 0, the last colour of [pre] otherwise. *)
Definition last_colour (pre : list rgb_colour) : rgb_colour :=
  default DARK (last pre).

(** The decoder keeps scanning over [run], entered after [previous_colour]:
    every colour of the run repeats its predecessor (idle) or is a data colour
    (two more bits). *)
Fixpoint keeps_scanning (previous_colour : rgb_colour) (run : list rgb_colour)
  : Prop :=
  match run with
  | [] => True
  | c :: run' =>
      (c = previous_colour \/ is_data_colour c) /\ keeps_scanning c run'
  end.

(** [*output] after colour [c] was seen behind [previous_colour]: two bits are
    shifted in on a data transition, nothing changes otherwise. *)
Definition shift_one (previous_colour : rgb_colour) (output : Z)
    (c : rgb_colour) : Z :=
  match nextColourSeq_to_2bit c previous_colour None with
  | (0, Some v) => uint8 (Z.lor (uint8 (Z.shiftl output 2)) v)
  | _ => output
  end.

(** The byte accumulated over a run, starting from [output]. *)
Fixpoint shift_in (previous_colour : rgb_colour) (output : Z)
    (run : list rgb_colour) : Z :=
  match run with
  | [] => output
  | c :: run' => shift_in c (shift_one previous_colour output c) run'
  end.

(** The values of a [uint8_t]. *)
Definition is_byte (input : Z) : Prop := 0 <= input < 256.

(** What a reader expects of a buffer that holds [inputs] from cursor [k] on:
    one successful call per byte, five colours further each time. *)
Fixpoint received (k : Z) (inputs : list Z) : list (Z * Z * Z) :=
  match inputs with
  | [] => []
  | input :: inputs' => (1, k + 5, input) :: received (k + 5) inputs'
  end.

(** A call of the decoder examines at most [budget] colours, and gives up
    (returns 0) exactly [budget] colours after the cursor it was called with. *)
Definition transition_budget (budget : Z) : Prop :=
  forall (colourSeq : list rgb_colour) (seq_ptr return_code k output : Z),
    fromColourSeq_get_uint8 colourSeq seq_ptr = Some (return_code, k, output) ->
    seq_ptr <= k <= seq_ptr + budget
    /\ (return_code = 0 -> k = seq_ptr + budget).

(** Every colour of [enc], entered after [previous_colour], differs from the
    colour before it, and none is Dark or Yellow. *)
Fixpoint self_clocked (previous_colour : rgb_colour) (enc : list rgb_colour)
  : Prop :=
  match enc with
  | [] => True
  | c :: enc' =>
      c <> previous_colour /\ c <> DARK /\ c <> YELLOW /\ self_clocked c enc'
  end.

(** The five colours [toColourSeq_uint8] writes for [input] at cursor 0. *)
Definition codeword (input : Z) : option (list rgb_colour) :=
  '(colourSeq, _) ← toColourSeq_uint8 input (replicate 5 DARK) 0;
  Some colourSeq.

Fixpoint codewords (inputs : list Z) : option (list rgb_colour) :=
  match inputs with
  | [] => Some []
  | input :: inputs' =>
      cw ← codeword input;
      rest ← codewords inputs';
      Some (cw ++ rest)
  end.

(** The number a run of single-digit [printf] calls writes in binary, most
    significant digit first; [None] when a call prints something else. *)
Fixpoint binary_value (acc : Z) (calls : list printf_call) : option Z :=
  match calls with
  | [] => Some acc
  | Printf format args :: calls' =>
      if decide (format = "0" /\ args = []) then binary_value (2 * acc) calls'
      else if decide (format = "1" /\ args = [])
           then binary_value (2 * acc + 1) calls'
           else None
  end.

(** ** The enumeration *)

(** Distinct enumerators have distinct values in 0..7, so that the [==] of the
    C program on two colours is equality of the colours. *)
Lemma rgb_colour_value_inj (c d : rgb_colour) :
  rgb_colour_value c = rgb_colour_value d <-> c = d.
Proof. split; [destruct c, d; now intros [=] | now intros ->]. Qed.

Lemma rgb_colour_value_range (c : rgb_colour) : 0 <= rgb_colour_value c <= 7.
Proof. destruct c; simpl; lia. Qed.

(** ** Buffer accesses at the end of a prefix *)

Section Buffer.

Implicit Types (pre post : list rgb_colour) (c d : rgb_colour).

Lemma load_middle pre c post :
  load (pre ++ c :: post) (Z.of_nat (length pre)) = Some c.
Proof.
  unfold load.
  rewrite (proj2 (Z.leb_le _ _)) by lia.
  rewrite Nat2Z.id. now apply list_lookup_middle.
Qed.

Lemma store_middle pre c d post :
  store (pre ++ c :: post) (Z.of_nat (length pre)) d = Some (pre ++ d :: post).
Proof.
  unfold store.
  rewrite (proj2 (Z.leb_le _ _)) by lia.
  rewrite (proj2 (Z.ltb_lt _ _)) by (rewrite length_app; simpl; lia).
  simpl. rewrite Nat2Z.id.
  now rewrite insert_app_r_alt, Nat.sub_diag by lia.
Qed.

Lemma load_previous pre post :
  (if Z.of_nat (length pre) =? 0 then Some DARK
   else load (pre ++ post) (Z.of_nat (length pre) - 1))
  = Some (last_colour pre).
Proof.
  unfold last_colour.
  destruct pre as [| c pre _] using rev_ind; [reflexivity |].
  rewrite length_app, last_snoc. simpl length.
  rewrite (proj2 (Z.eqb_neq _ _)) by lia.
  replace (Z.of_nat (length pre + 1) - 1) with (Z.of_nat (length pre)) by lia.
  rewrite <- app_assoc. apply load_middle.
Qed.

Lemma int_incr_middle pre c post :
  Z.of_nat (length (pre ++ c :: post)) <= INT_MAX ->
  int_incr (Z.of_nat (length pre)) = Some (Z.of_nat (length (pre ++ [c]))).
Proof.
  intros Hmax. rewrite !length_app in *. simpl length in *.
  unfold int_incr. rewrite (proj2 (Z.ltb_lt _ _)) by lia.
  f_equal. lia.
Qed.

Lemma last_colour_snoc pre c : last_colour (pre ++ [c]) = c.
Proof. unfold last_colour. now rewrite last_snoc. Qed.

End Buffer.

(** ** Properties of a single transition *)

Section Transition.

Lemma two_bit_cases (v : Z) :
  0 <= v < 4 -> v = 0 \/ v = 1 \/ v = 2 \/ v = 3.
Proof. lia. Qed.

Lemma land_3_mod (v : Z) : Z.land v 3 = v mod 4.
Proof. exact (Z.land_ones v 2 ltac:(lia)). Qed.

Lemma land_3_range (v : Z) : 0 <= Z.land v 3 < 4.
Proof. rewrite land_3_mod. apply Z.mod_pos_bound. lia. Qed.

(** The encoder only looks at the low two bits of its argument. *)
Lemma from_2bit_masks (v : Z) (p : rgb_colour) :
  nextColourSeq_from_2bit v p = nextColourSeq_from_2bit (Z.land v 3) p.
Proof.
  unfold nextColourSeq_from_2bit.
  now rewrite <- Z.land_assoc.
Qed.

(** On a two-bit value the encoder is a table of 8 x 4 entries; every entry
    is a data colour other than the previous colour, and the decoder maps it
    back to the value whatever [*halfnibble_out] held before. *)
Lemma transition_table (v : Z) (p : rgb_colour) (h : option Z) :
  0 <= v < 4 ->
  exists c, nextColourSeq_from_2bit v p = Some c
            /\ is_data_colour c
            /\ c <> p
            /\ nextColourSeq_to_2bit c p h = (0, Some v).
Proof.
  intros Hv.
  destruct (two_bit_cases v Hv) as [-> | [-> | [-> | ->]]];
    destruct p; vm_compute; eexists;
    (split; [reflexivity |]);
    (split; [unfold is_data_colour, halfByteColour; repeat constructor |]);
    (split; [discriminate | reflexivity]).
Qed.

End Transition.

(** ** The encoder writes five colours *)

Section Encoder.

Implicit Types (pre old post : list rgb_colour) (c : rgb_colour).

(** The [i]-th half nibble of the loop is a base-4 digit of the input. *)
Lemma half_nibble_digit (input i : Z) :
  0 <= i <= 3 ->
  uint8 (Z.land (Z.shiftr input (2 * (3 - i))) 3)
  = (input / 2 ^ (2 * (3 - i))) mod 4.
Proof.
  intros Hi. rewrite land_3_mod, Z.shiftr_div_pow2 by lia.
  unfold uint8. apply Z.mod_small.
  pose proof (Z.mod_pos_bound (input / 2 ^ (2 * (3 - i))) 4). lia.
Qed.

Lemma toColourSeq_loop_step (n : nat) (i input : Z) pre c0 post p c :
  Z.of_nat (length (pre ++ c0 :: post)) <= INT_MAX ->
  nextColourSeq_from_2bit
    (uint8 (Z.land (Z.shiftr input (2 * (3 - i))) 3)) p = Some c ->
  toColourSeq_loop (S n) i input (pre ++ c0 :: post) (Z.of_nat (length pre)) p
  = toColourSeq_loop n (i + 1) input ((pre ++ [c]) ++ post)
      (Z.of_nat (length (pre ++ [c]))) c.
Proof.
  intros Hmax Hc. cbn [toColourSeq_loop]. rewrite Hc. cbn [mbind option_bind].
  rewrite store_middle. cbn [mbind option_bind].
  rewrite load_middle. cbn [mbind option_bind].
  rewrite (int_incr_middle pre c0 post Hmax). cbn [mbind option_bind].
  rewrite !length_app. now rewrite <- app_assoc.
Qed.

Lemma toColourSeq_uint8_writes (input : Z) pre old post :
  0 <= input < 256 ->
  length old = 5%nat ->
  Z.of_nat (length (pre ++ old ++ post)) <= INT_MAX ->
  exists c0 c1 c2 c3,
    nextColourSeq_from_2bit (input / 64 mod 4) (last_colour pre) = Some c0
    /\ nextColourSeq_from_2bit (input / 16 mod 4) c0 = Some c1
    /\ nextColourSeq_from_2bit (input / 4 mod 4) c1 = Some c2
    /\ nextColourSeq_from_2bit (input mod 4) c2 = Some c3
    /\ toColourSeq_uint8 input (pre ++ old ++ post) (Z.of_nat (length pre))
       = Some (pre ++ [c0; c1; c2; c3; WHITE] ++ post,
               Z.of_nat (length pre) + 5).
Proof.
  intros Hin Hold Hmax.
  destruct old as [| o0 [| o1 [| o2 [| o3 [| o4 [| ? ?]]]]]]; try discriminate.
  clear Hold.
  assert (Hdigit : forall q, 0 <= q mod 4 < 4)
    by (intros q; apply Z.mod_pos_bound; lia).
  destruct (transition_table (input / 64 mod 4) (last_colour pre) None
              (Hdigit _)) as (c0 & H0 & _).
  destruct (transition_table (input / 16 mod 4) c0 None (Hdigit _))
    as (c1 & H1 & _).
  destruct (transition_table (input / 4 mod 4) c1 None (Hdigit _))
    as (c2 & H2 & _).
  destruct (transition_table (input mod 4) c2 None (Hdigit _))
    as (c3 & H3 & _).
  exists c0, c1, c2, c3. repeat (split; [assumption |]).
  unfold toColourSeq_uint8. rewrite load_previous. cbn [mbind option_bind].
  change ([o0; o1; o2; o3; o4] ++ post)
    with (o0 :: o1 :: o2 :: o3 :: o4 :: post) in *.
  rewrite (toColourSeq_loop_step 3 0 input pre o0 _ _ c0); cycle 1.
  { exact Hmax. }
  { rewrite half_nibble_digit by lia. exact H0. }
  rewrite (toColourSeq_loop_step 2 (0 + 1) input (pre ++ [c0]) o1 _ _ c1);
    cycle 1.
  { revert Hmax. rewrite !length_app. simpl. lia. }
  { rewrite half_nibble_digit by lia. exact H1. }
  rewrite (toColourSeq_loop_step 1 (0 + 1 + 1) input
             ((pre ++ [c0]) ++ [c1]) o2 _ _ c2); cycle 1.
  { revert Hmax. rewrite !length_app. simpl. lia. }
  { rewrite half_nibble_digit by lia. exact H2. }
  rewrite (toColourSeq_loop_step 0 (0 + 1 + 1 + 1) input
             (((pre ++ [c0]) ++ [c1]) ++ [c2]) o3 _ _ c3); cycle 1.
  { revert Hmax. rewrite !length_app. simpl. lia. }
  { rewrite half_nibble_digit by lia.
    replace (input / 2 ^ (2 * (3 - (0 + 1 + 1 + 1)))) with input
      by (symmetry; apply Z.div_1_r).
    exact H3. }
  cbn [toColourSeq_loop mbind option_bind].
  rewrite store_middle. cbn [mbind option_bind].
  rewrite (int_incr_middle _ o4 post)
    by (revert Hmax; rewrite !length_app; simpl; lia).
  cbn [mbind option_bind]. f_equal. f_equal.
  - now rewrite <- !app_assoc.
  - rewrite !length_app. simpl. lia.
Qed.

End Encoder.

(** ** The decoder loop *)

Section Decoder.

Implicit Types (pre run win post rest : list rgb_colour) (c p : rgb_colour).

Lemma data_colour_cases c :
  is_data_colour c ->
  c = BLUE \/ c = GREEN \/ c = CYAN \/ c = RED \/ c = MAGENTA.
Proof.
  unfold is_data_colour, halfByteColour.
  rewrite !elem_of_cons, elem_of_nil. tauto.
Qed.

(** A data colour after a different colour carries two bits. *)
Lemma to_2bit_data c p h :
  is_data_colour c -> c <> p ->
  exists v, 0 <= v < 4 /\ nextColourSeq_to_2bit c p h = (0, Some v).
Proof.
  intros Hc Hne.
  destruct (data_colour_cases c Hc) as [-> | [-> | [-> | [-> | ->]]]];
    destruct p; try contradiction;
    eexists; (split; [| vm_compute; reflexivity]); lia.
Qed.

(** A mark after a different colour ends the byte. *)
Lemma to_2bit_mark c p h :
  is_mark c -> c <> p ->
  nextColourSeq_to_2bit c p h = (1, h) \/ nextColourSeq_to_2bit c p h = (2, h).
Proof.
  intros [-> | ->] Hne; destruct p; try contradiction;
    vm_compute; auto.
Qed.

(** One iteration, with the buffer split at the cursor. *)
Lemma fromColourSeq_loop_step (n : nat) pre c post p (output : Z) :
  Z.of_nat (length (pre ++ c :: post)) <= INT_MAX ->
  fromColourSeq_loop (S n) (pre ++ c :: post) (Z.of_nat (length pre)) p output
  = let k := Z.of_nat (length (pre ++ [c])) in
    let continue := fromColourSeq_loop n ((pre ++ [c]) ++ post) k c in
    match nextColourSeq_to_2bit c p None with
    | (2, _) | (1, _) => Some (1, k, output)
    | (0, Some v) => continue (uint8 (Z.lor (uint8 (Z.shiftl output 2)) v))
    | (0, None) => None
    | (-2, _) => Some (-1, k, output)
    | _ => continue output
    end.
Proof.
  intros Hmax. cbn [fromColourSeq_loop].
  rewrite load_middle. cbn [mbind option_bind].
  rewrite (int_incr_middle pre c post Hmax).
  rewrite <- (app_assoc pre [c] post). cbn [app].
  destruct (nextColourSeq_to_2bit c p None) as [rc h].
  cbn [mbind option_bind].
  destruct rc as [| [[| |] | [| |] |] | [[| |] | [| |] |]];
    try reflexivity; destruct h; reflexivity.
Qed.

Lemma fromColourSeq_loop_scan (n : nat) pre c post p (output : Z) :
  Z.of_nat (length (pre ++ c :: post)) <= INT_MAX ->
  c = p \/ is_data_colour c ->
  fromColourSeq_loop (S n) (pre ++ c :: post) (Z.of_nat (length pre)) p output
  = fromColourSeq_loop n ((pre ++ [c]) ++ post)
      (Z.of_nat (length (pre ++ [c]))) c (shift_one p output c).
Proof.
  intros Hmax Hc. rewrite fromColourSeq_loop_step by assumption.
  unfold shift_one.
  destruct (decide (c = p)) as [Heq | Hne].
  - unfold nextColourSeq_to_2bit. now rewrite (decide_True _ _ Heq).
  - destruct Hc as [Hc | Hc]; [contradiction |].
    destruct (to_2bit_data c p None Hc Hne) as (v & _ & ->).
    reflexivity.
Qed.

Lemma fromColourSeq_loop_mark (n : nat) pre c post p (output : Z) :
  Z.of_nat (length (pre ++ c :: post)) <= INT_MAX ->
  is_mark c -> c <> p ->
  fromColourSeq_loop (S n) (pre ++ c :: post) (Z.of_nat (length pre)) p output
  = Some (1, Z.of_nat (length pre) + 1, output).
Proof.
  intros Hmax Hc Hne. rewrite fromColourSeq_loop_step by assumption.
  rewrite length_app. simpl length.
  replace (Z.of_nat (length pre + 1)) with (Z.of_nat (length pre) + 1) by lia.
  destruct (to_2bit_mark c p None Hc Hne) as [-> | ->]; reflexivity.
Qed.

Lemma fromColourSeq_loop_down (n : nat) pre post p (output : Z) :
  Z.of_nat (length (pre ++ DARK :: post)) <= INT_MAX ->
  p <> DARK ->
  fromColourSeq_loop (S n) (pre ++ DARK :: post) (Z.of_nat (length pre)) p
    output
  = Some (-1, Z.of_nat (length pre) + 1, output).
Proof.
  intros Hmax Hne. rewrite fromColourSeq_loop_step by assumption.
  rewrite length_app. simpl length.
  replace (Z.of_nat (length pre + 1)) with (Z.of_nat (length pre) + 1) by lia.
  destruct p; [contradiction | reflexivity ..].
Qed.

(** Over a run of idle and data transitions the loop shifts the data in and
    arrives at the end of the run. *)
Lemma fromColourSeq_loop_run (n : nat) run : forall pre rest (output : Z),
  keeps_scanning (last_colour pre) run ->
  Z.of_nat (length (pre ++ run ++ rest)) <= INT_MAX ->
  fromColourSeq_loop (length run + n) (pre ++ run ++ rest)
    (Z.of_nat (length pre)) (last_colour pre) output
  = fromColourSeq_loop n ((pre ++ run) ++ rest)
      (Z.of_nat (length (pre ++ run))) (last_colour (pre ++ run))
      (shift_in (last_colour pre) output run).
Proof.
  induction run as [| c run IH]; intros pre rest output Hrun Hmax.
  - cbn [length Nat.add shift_in app]. now rewrite app_nil_r.
  - destruct Hrun as [Hc Hrun].
    cbn [length Nat.add app shift_in].
    rewrite fromColourSeq_loop_scan by assumption.
    pose proof (IH (pre ++ [c]) rest (shift_one (last_colour pre) output c))
      as IH'.
    rewrite last_colour_snoc, <- !app_assoc in IH'.
    rewrite <- !app_assoc. now apply IH'.
Qed.

(** A call whose window starts with such a run. *)
Lemma fromColourSeq_get_uint8_run (n : nat) pre run rest :
  keeps_scanning (last_colour pre) run ->
  (length run + n = 5)%nat ->
  Z.of_nat (length (pre ++ run ++ rest)) <= INT_MAX ->
  fromColourSeq_get_uint8 (pre ++ run ++ rest) (Z.of_nat (length pre))
  = fromColourSeq_loop n ((pre ++ run) ++ rest)
      (Z.of_nat (length (pre ++ run))) (last_colour (pre ++ run))
      (shift_in (last_colour pre) 0 run).
Proof.
  intros Hrun Hn Hmax. unfold fromColourSeq_get_uint8.
  rewrite load_previous. cbn [mbind option_bind]. cbn zeta.
  rewrite <- Hn. now apply fromColourSeq_loop_run.
Qed.

(** Two bits shifted into an accumulator that still has room. *)
Lemma shift_two_bits (output v : Z) :
  0 <= output < 64 -> 0 <= v < 4 ->
  uint8 (Z.lor (uint8 (Z.shiftl output 2)) v) = 4 * output + v.
Proof.
  intros Hout Hv. unfold uint8.
  rewrite Z.shiftl_mul_pow2 by lia. change (2 ^ 2) with 4.
  rewrite (Z.mod_small (output * 4)) by lia.
  assert (Hland : Z.land (output * 4) v = 0).
  { rewrite <- (Z.mod_small v 4), <- land_3_mod by lia.
    rewrite (Z.land_comm v), Z.land_assoc, land_3_mod.
    now rewrite Z.mod_mul by lia. }
  pose proof (Z.add_lor_land (output * 4) v) as Hadd.
  rewrite Hland in Hadd.
  rewrite (Z.mod_small (Z.lor _ _)); lia.
Qed.

(** The five colours of an encoded byte decode to that byte. *)
Lemma fromColourSeq_get_uint8_encoded (input : Z) pre c0 c1 c2 c3 post :
  0 <= input < 256 ->
  nextColourSeq_from_2bit (input / 64 mod 4) (last_colour pre) = Some c0 ->
  nextColourSeq_from_2bit (input / 16 mod 4) c0 = Some c1 ->
  nextColourSeq_from_2bit (input / 4 mod 4) c1 = Some c2 ->
  nextColourSeq_from_2bit (input mod 4) c2 = Some c3 ->
  Z.of_nat (length (pre ++ [c0; c1; c2; c3; WHITE] ++ post)) <= INT_MAX ->
  fromColourSeq_get_uint8 (pre ++ [c0; c1; c2; c3; WHITE] ++ post)
    (Z.of_nat (length pre))
  = Some (1, Z.of_nat (length pre) + 5, input).
Proof.
  intros Hin H0 H1 H2 H3 Hmax.
  assert (Hdigit : forall q, 0 <= q mod 4 < 4)
    by (intros q; apply Z.mod_pos_bound; lia).
  destruct (transition_table _ (last_colour pre) None (Hdigit (input / 64)))
    as (? & E0 & D0 & _ & T0).
  rewrite H0 in E0. injection E0 as <-.
  destruct (transition_table _ c0 None (Hdigit (input / 16)))
    as (? & E1 & D1 & _ & T1).
  rewrite H1 in E1. injection E1 as <-.
  destruct (transition_table _ c1 None (Hdigit (input / 4)))
    as (? & E2 & D2 & _ & T2).
  rewrite H2 in E2. injection E2 as <-.
  destruct (transition_table _ c2 None (Hdigit input))
    as (? & E3 & D3 & _ & T3).
  rewrite H3 in E3. injection E3 as <-.
  change ([c0; c1; c2; c3; WHITE] ++ post)
    with ([c0; c1; c2; c3] ++ WHITE :: post) in *.
  rewrite (fromColourSeq_get_uint8_run 1); cycle 1.
  { simpl. tauto. }
  { reflexivity. }
  { exact Hmax. }
  rewrite fromColourSeq_loop_mark; cycle 1.
  { now rewrite <- app_assoc. }
  { now left. }
  { replace (pre ++ [c0; c1; c2; c3]) with ((pre ++ [c0; c1; c2]) ++ [c3])
      by now rewrite <- app_assoc.
    rewrite last_colour_snoc. intros <-.
    destruct (data_colour_cases _ D3) as [? | [? | [? | [? | ?]]]];
      discriminate. }
  rewrite length_app. simpl length.
  cbn [shift_in]. unfold shift_one. rewrite T0, T1, T2, T3.
  pose proof (Hdigit (input / 64)). pose proof (Hdigit (input / 16)).
  pose proof (Hdigit (input / 4)). pose proof (Hdigit input).
  rewrite (shift_two_bits 0) by lia.
  rewrite (shift_two_bits (4 * 0 + _)) by lia.
  rewrite (shift_two_bits (4 * (4 * 0 + _) + _)) by lia.
  rewrite (shift_two_bits (4 * (4 * (4 * 0 + _) + _) + _)) by lia.
  f_equal. f_equal; [f_equal; lia |].
  Z.to_euclidean_division_equations; lia.
Qed.

Lemma colour_cases c : c = DARK \/ is_data_colour c \/ is_mark c.
Proof.
  unfold is_data_colour, halfByteColour, is_mark.
  destruct c; rewrite !elem_of_cons; tauto.
Qed.

(** A window without marks ends in 0 or in -1. *)
Lemma fromColourSeq_loop_without_mark win : forall pre post (output : Z),
  (forall c, c ∈ win -> ~ is_mark c) ->
  Z.of_nat (length (pre ++ win ++ post)) <= INT_MAX ->
  exists return_code k output',
    fromColourSeq_loop (length win) (pre ++ win ++ post)
      (Z.of_nat (length pre)) (last_colour pre) output
    = Some (return_code, k, output')
    /\ (return_code = 0 \/ return_code = -1)
    /\ k <= Z.of_nat (length pre) + Z.of_nat (length win).
Proof.
  induction win as [| c win IH]; intros pre post output Hwin Hmax.
  - exists 0, (Z.of_nat (length pre)), output. simpl. split; [| lia]. reflexivity.
  - cbn [length app].
    assert (Hscan_or_down :
              (c = last_colour pre \/ is_data_colour c)
              \/ (c = DARK /\ last_colour pre <> DARK)).
    { destruct (decide (c = last_colour pre)) as [| Hne]; [tauto |].
      destruct (colour_cases c) as [-> | [? | Hm]]; [| tauto |].
      - right. split; congruence.
      - destruct (Hwin c); [left | assumption]. }
    destruct Hscan_or_down as [Hc | [-> Hp]].
    + rewrite fromColourSeq_loop_scan by assumption.
      destruct (IH (pre ++ [c]) post (shift_one (last_colour pre) output c))
        as (rc & k & output' & Hloop & Hrc & Hk).
      { intros d Hd. apply Hwin. now right. }
      { now rewrite <- app_assoc. }
      rewrite last_colour_snoc in Hloop.
      exists rc, k, output'. split; [exact Hloop |]. split; [exact Hrc |].
      revert Hk. rewrite length_app. simpl length. lia.
    + rewrite fromColourSeq_loop_down by assumption.
      eexists _, _, _. split; [reflexivity |]. split; [now right | lia].
Qed.

(** The loop moves the cursor by at most [n], and returns 0 only when its
    iterations are used up. *)
Lemma fromColourSeq_loop_budget (n : nat) :
  forall (colourSeq : list rgb_colour) (seq_ptr : Z) p
         (output return_code k output' : Z),
    fromColourSeq_loop n colourSeq seq_ptr p output
    = Some (return_code, k, output') ->
    seq_ptr <= k <= seq_ptr + Z.of_nat n
    /\ (return_code = 0 -> k = seq_ptr + Z.of_nat n).
Proof.
  induction n as [| n IH];
    intros colourSeq seq_ptr p output return_code k output' Hloop.
  - simpl in Hloop. injection Hloop as <- <- _. lia.
  - cbn [fromColourSeq_loop] in Hloop.
    destruct (load colourSeq seq_ptr) as [c |]; [| discriminate].
    cbn [mbind option_bind] in Hloop.
    destruct (nextColourSeq_to_2bit c p None) as [rc h].
    unfold int_incr in Hloop.
    destruct (seq_ptr <? INT_MAX); [| discriminate].
    cbn [mbind option_bind] in Hloop.
    repeat match type of Hloop with
           | (if ?b then _ else _) = _ => destruct b
           end;
      try (injection Hloop as <- <- _; lia);
      try (destruct h; [| discriminate]; cbn [mbind option_bind] in Hloop);
      apply IH in Hloop; lia.
Qed.

End Decoder.

(** ** Buffers filled byte by byte *)

Section Stream.

Implicit Types (pre old enc post : list rgb_colour) (inputs : list Z).

(** Encoding [inputs] behind [pre] overwrites [old] with colours that any
    reader positioned at the end of [pre] decodes back to [inputs]. *)
Lemma encode_bytes_decode_bytes inputs : forall pre old post,
  Forall is_byte inputs ->
  length old = (5 * length inputs)%nat ->
  Z.of_nat (length (pre ++ old ++ post)) <= INT_MAX ->
  exists enc,
    length enc = length old
    /\ encode_bytes inputs (pre ++ old ++ post) (Z.of_nat (length pre))
       = Some (pre ++ enc ++ post,
               Z.of_nat (length pre) + 5 * Z.of_nat (length inputs))
    /\ forall post',
         Z.of_nat (length (pre ++ enc ++ post')) <= INT_MAX ->
         decode_bytes (length inputs) (pre ++ enc ++ post')
           (Z.of_nat (length pre))
         = Some (received (Z.of_nat (length pre)) inputs).
Proof.
  induction inputs as [| input inputs IH]; intros pre old post Hbytes Hold Hmax.
  - exists []. destruct old; [| discriminate].
    split; [reflexivity |]. split.
    + simpl. f_equal. f_equal. lia.
    + reflexivity.
  - inversion Hbytes as [| ? ? Hbyte Hbytes']; subst.
    rewrite <- (take_drop 5 old) in Hmax |- *.
    set (o5 := take 5 old) in *. set (old' := drop 5 old) in *.
    assert (Ho5 : length o5 = 5%nat)
      by (unfold o5; rewrite length_take; simpl in Hold; lia).
    assert (Hold' : length old' = (5 * length inputs)%nat)
      by (unfold old'; rewrite length_drop; simpl in Hold; lia).
    rewrite <- (app_assoc o5 old' post) in Hmax |- *.
    destruct (toColourSeq_uint8_writes input pre o5 (old' ++ post)
                Hbyte Ho5 Hmax) as (c0 & c1 & c2 & c3 & H0 & H1 & H2 & H3 & Henc).
    set (e5 := [c0; c1; c2; c3; WHITE]) in *.
    assert (Hlen : Z.of_nat (length (pre ++ e5))
                   = Z.of_nat (length pre) + 5)
      by (rewrite length_app; simpl; lia).
    destruct (IH (pre ++ e5) old' post Hbytes' Hold')
      as (enc' & Henc' & Hrest & Hdec).
    { revert Hmax. rewrite !length_app. unfold e5. simpl length. lia. }
    exists (e5 ++ enc'). split; [| split].
    + rewrite !length_app. unfold e5. simpl length. lia.
    + cbn [encode_bytes]. rewrite Henc. cbn [mbind option_bind].
      rewrite <- Hlen, (app_assoc pre e5), Hrest.
      rewrite <- !app_assoc. f_equal. f_equal.
      rewrite Hlen. simpl length. lia.
    + intros post' Hmax'. rewrite <- (app_assoc e5 enc' post') in Hmax' |- *.
      cbn [decode_bytes length received].
      rewrite (fromColourSeq_get_uint8_encoded input pre c0 c1 c2 c3)
        by assumption.
      cbn [mbind option_bind].
      rewrite <- Hlen, (app_assoc pre e5), Hdec
        by now rewrite <- app_assoc.
      reflexivity.
Qed.

End Stream.

(** C1. Round trip of one transition: for each of the 8 previous colours [p]
    and each two-bit value [v], the encoder yields a colour [c], and decoding
    [c] against [p] returns code 0 (data) and stores [v] in [*halfnibble_out],
    whatever that object held before. *)
Theorem transition_round_trip (v : Z) (p : rgb_colour) (h : option Z) :
  0 <= v < 4 ->
  exists c, nextColourSeq_from_2bit v p = Some c
            /\ nextColourSeq_to_2bit c p h = (0, Some v).
Proof.
  intros Hv.
  destruct (transition_table v p h Hv) as (c & Hc & _ & _ & Hd).
  now exists c.
Qed.

Lemma transition_round_trip_witness :
  exists c, nextColourSeq_from_2bit 3 MAGENTA = Some c
            /\ nextColourSeq_to_2bit c MAGENTA None = (0, Some 3).
Proof. apply (transition_round_trip 3 MAGENTA None). lia. Defined.

(** C3. No-repeat invariant: for each of the 8 previous colours [p] and each
    two-bit value [v], the encoder yields one of Blue, Green, Cyan, Red,
    Magenta, and that colour differs from [p]. *)
Theorem from_2bit_never_repeats (v : Z) (p : rgb_colour) :
  0 <= v < 4 ->
  exists c, nextColourSeq_from_2bit v p = Some c
            /\ c ∈ [BLUE; GREEN; CYAN; RED; MAGENTA]
            /\ c <> p.
Proof.
  intros Hv.
  destruct (transition_table v p None Hv) as (c & Hc & Hdata & Hne & _).
  now exists c.
Qed.

Lemma from_2bit_never_repeats_witness :
  exists c, nextColourSeq_from_2bit 2 CYAN = Some c
            /\ c ∈ [BLUE; GREEN; CYAN; RED; MAGENTA]
            /\ c <> CYAN.
Proof. apply (from_2bit_never_repeats 2 CYAN). lia. Defined.

(** C6. Channel-down detection: Dark arriving after any other colour gives
    return code -2 (not 0, 1 or 2) and leaves [*halfnibble_out] untouched. *)
Theorem to_2bit_channel_down (p : rgb_colour) (h : option Z) :
  p <> DARK ->
  nextColourSeq_to_2bit DARK p h = (-2, h).
Proof. intros Hp. destruct p; [contradiction | reflexivity ..]. Qed.

Lemma to_2bit_channel_down_witness :
  nextColourSeq_to_2bit DARK WHITE None = (-2, None).
Proof. apply (to_2bit_channel_down WHITE None). discriminate. Defined.

(** C8. Idle detection: a colour arriving after itself gives return code -1
    for all 8 colours, Dark included, and leaves [*halfnibble_out] untouched;
    the test comes first, so no other classification is made. *)
Theorem to_2bit_idle (s : rgb_colour) (h : option Z) :
  nextColourSeq_to_2bit s s h = (-1, h).
Proof. unfold nextColourSeq_to_2bit. now rewrite decide_True. Qed.

(** C10. The encoder masks its argument: on every 8-bit value [v] it returns
    what it returns on [v mod 4], and that is always a colour of the data
    cycle (the array index is in range). *)
Theorem from_2bit_masks_low_bits (v : Z) (p : rgb_colour) :
  0 <= v < 256 ->
  nextColourSeq_from_2bit v p = nextColourSeq_from_2bit (v mod 4) p
  /\ exists c, nextColourSeq_from_2bit v p = Some c /\ is_data_colour c.
Proof.
  intros _.
  rewrite from_2bit_masks, land_3_mod. split; [reflexivity |].
  destruct (transition_table (v mod 4) p None) as (c & Hc & Hdata & _).
  - apply Z.mod_pos_bound. lia.
  - now exists c.
Qed.

Lemma from_2bit_masks_low_bits_witness :
  nextColourSeq_from_2bit 255 RED = nextColourSeq_from_2bit (255 mod 4) RED
  /\ exists c, nextColourSeq_from_2bit 255 RED = Some c /\ is_data_colour c.
Proof. apply (from_2bit_masks_low_bits 255 RED). lia. Defined.

(** C5. For every byte and every cursor with five cells of room behind it,
    [toColourSeq_uint8] overwrites exactly those five cells: the four base-4
    digits of the byte, most significant first, each encoded against the
    colour written just before it (the colour before the cursor, Dark at
    cursor 0, for the first), then White.  The rest of the buffer is kept, the
    cursor advances by 5 and White is the colour the next call finds before
    its cursor. *)
Theorem toColourSeq_uint8_appends_five (input : Z)
    (pre old post : list rgb_colour) :
  0 <= input < 256 ->
  length old = 5%nat ->
  Z.of_nat (length (pre ++ old ++ post)) <= INT_MAX ->
  exists c0 c1 c2 c3,
    nextColourSeq_from_2bit (input / 64 mod 4) (last_colour pre) = Some c0
    /\ nextColourSeq_from_2bit (input / 16 mod 4) c0 = Some c1
    /\ nextColourSeq_from_2bit (input / 4 mod 4) c1 = Some c2
    /\ nextColourSeq_from_2bit (input mod 4) c2 = Some c3
    /\ toColourSeq_uint8 input (pre ++ old ++ post) (Z.of_nat (length pre))
       = Some (pre ++ [c0; c1; c2; c3; WHITE] ++ post,
               Z.of_nat (length pre) + 5)
    /\ last_colour (pre ++ [c0; c1; c2; c3; WHITE]) = WHITE
    /\ input = 64 * (input / 64 mod 4) + 16 * (input / 16 mod 4)
               + 4 * (input / 4 mod 4) + input mod 4.
Proof.
  intros Hin Hold Hmax.
  destruct (toColourSeq_uint8_writes input pre old post Hin Hold Hmax)
    as (c0 & c1 & c2 & c3 & H0 & H1 & H2 & H3 & Henc).
  exists c0, c1, c2, c3. repeat (split; [assumption |]). split.
  - change [c0; c1; c2; c3; WHITE] with ([c0; c1; c2; c3] ++ [WHITE]).
    rewrite app_assoc. apply last_colour_snoc.
  - Z.to_euclidean_division_equations; lia.
Qed.

Lemma toColourSeq_uint8_appends_five_witness :
  exists c0 c1 c2 c3,
    nextColourSeq_from_2bit (72 / 64 mod 4) WHITE = Some c0
    /\ nextColourSeq_from_2bit (72 / 16 mod 4) c0 = Some c1
    /\ nextColourSeq_from_2bit (72 / 4 mod 4) c1 = Some c2
    /\ nextColourSeq_from_2bit (72 mod 4) c2 = Some c3
    /\ toColourSeq_uint8 72
         ([RED; WHITE] ++ [DARK; DARK; DARK; DARK; DARK] ++ [DARK]) 2
       = Some ([RED; WHITE] ++ [c0; c1; c2; c3; WHITE] ++ [DARK], 2 + 5)
    /\ last_colour ([RED; WHITE] ++ [c0; c1; c2; c3; WHITE]) = WHITE
    /\ 72 = 64 * (72 / 64 mod 4) + 16 * (72 / 16 mod 4)
            + 4 * (72 / 4 mod 4) + 72 mod 4.
Proof.
  apply (toColourSeq_uint8_appends_five 72 [RED; WHITE]
           [DARK; DARK; DARK; DARK; DARK] [DARK]).
  - lia.
  - reflexivity.
  - vm_compute. discriminate.
Defined.

(** C2. Byte round trip: bytes encoded one after the other from cursor 0 (so
    from Dark, each call finding the previous call's mark before its cursor)
    are read back in order by as many calls of the decoder from cursor 0; each
    call succeeds (return code 1, the mark consumed) and leaves the cursor 5
    further. *)
Theorem encode_decode_round_trip (inputs : list Z)
    (colourSeq : list rgb_colour) :
  Forall is_byte inputs ->
  5 * Z.of_nat (length inputs) <= Z.of_nat (length colourSeq) <= INT_MAX ->
  exists colourSeq',
    encode_bytes inputs colourSeq 0
    = Some (colourSeq', 5 * Z.of_nat (length inputs))
    /\ length colourSeq' = length colourSeq
    /\ decode_bytes (length inputs) colourSeq' 0 = Some (received 0 inputs).
Proof.
  intros Hbytes [Hroom Hmax].
  set (n := (5 * length inputs)%nat).
  destruct (encode_bytes_decode_bytes inputs [] (take n colourSeq)
              (drop n colourSeq) Hbytes) as (enc & Hlen & Henc & Hdec).
  { rewrite length_take. lia. }
  { cbn [app]. now rewrite take_drop. }
  cbn [app length] in Henc, Hdec. rewrite take_drop in Henc.
  assert (Hsame : length (enc ++ drop n colourSeq) = length colourSeq).
  { rewrite length_app, Hlen, <- length_app. now rewrite take_drop. }
  exists (enc ++ drop n colourSeq). split; [exact Henc |]. split; [exact Hsame |].
  apply Hdec. now rewrite Hsame.
Qed.

Lemma encode_decode_round_trip_witness :
  exists colourSeq',
    encode_bytes [72; 73] (replicate 10 DARK) 0 = Some (colourSeq', 10)
    /\ length colourSeq' = 10%nat
    /\ decode_bytes 2 colourSeq' 0 = Some [(1, 5, 72); (1, 10, 73)].
Proof.
  apply (encode_decode_round_trip [72; 73] (replicate 10 DARK)).
  - repeat constructor; unfold is_byte; lia.
  - vm_compute. split; discriminate.
Defined.

(** The two instances named by the specification, by evaluation: 'H' alone,
    then "HI". *)
Example encode_decode_H :
  toColourSeq_uint8 72 (replicate 5 DARK) 0
  = Some ([GREEN; CYAN; BLUE; GREEN; WHITE], 5)
  /\ fromColourSeq_get_uint8 [GREEN; CYAN; BLUE; GREEN; WHITE] 0
     = Some (1, 5, 72).
Proof. split; reflexivity. Qed.

Example encode_decode_HI :
  encode_bytes [72; 73] (replicate 10 DARK) 0
  = Some ([GREEN; CYAN; BLUE; GREEN; WHITE;
           GREEN; CYAN; BLUE; CYAN; WHITE], 10)
  /\ decode_bytes 2
       [GREEN; CYAN; BLUE; GREEN; WHITE; GREEN; CYAN; BLUE; CYAN; WHITE] 0
     = Some [(1, 5, 72); (1, 10, 73)].
Proof. split; reflexivity. Qed.

(** C7. Channel closed: when, after a run of idle and data transitions shorter
    than the five iterations of a call, Dark arrives behind a colour other
    than Dark, the call returns -1 (neither 1, byte received, nor 0, gave up)
    with the cursor just behind the Dark and [*output] holding the bits
    shifted in so far. *)
Theorem channel_closed_is_reported (pre run post : list rgb_colour) :
  keeps_scanning (last_colour pre) run ->
  (length run < 5)%nat ->
  last_colour (pre ++ run) <> DARK ->
  Z.of_nat (length (pre ++ run ++ DARK :: post)) <= INT_MAX ->
  fromColourSeq_get_uint8 (pre ++ run ++ DARK :: post) (Z.of_nat (length pre))
  = Some (-1, Z.of_nat (length pre) + Z.of_nat (length run) + 1,
          shift_in (last_colour pre) 0 run).
Proof.
  intros Hrun Hlen Hlast Hmax.
  rewrite (fromColourSeq_get_uint8_run (S (4 - length run)))
    by (assumption || lia).
  rewrite fromColourSeq_loop_down by (rewrite <- ?app_assoc; assumption).
  now rewrite length_app, Nat2Z.inj_add.
Qed.

Lemma channel_closed_is_reported_witness :
  fromColourSeq_get_uint8 ([WHITE] ++ [GREEN; RED] ++ DARK :: [BLUE]) 1
  = Some (-1, 1 + 2 + 1, 5).
Proof.
  apply (channel_closed_is_reported [WHITE] [GREEN; RED] [BLUE]).
  - simpl. repeat split; right; repeat constructor.
  - simpl. lia.
  - vm_compute. discriminate.
  - vm_compute. discriminate.
Defined.

(** C9. White and Yellow are interchangeable terminators: after a run of idle
    and data transitions shorter than the five iterations of a call, either
    mark arriving behind a colour other than itself makes the call return 1
    with the cursor just behind the mark and [*output] holding the bits
    shifted in over the run; putting the other mark in its place changes
    nothing in the result. *)
Theorem marks_are_interchangeable (pre run post : list rgb_colour)
    (m m' : rgb_colour) :
  is_mark m -> is_mark m' ->
  keeps_scanning (last_colour pre) run ->
  (length run < 5)%nat ->
  last_colour (pre ++ run) <> m ->
  last_colour (pre ++ run) <> m' ->
  Z.of_nat (length (pre ++ run ++ m :: post)) <= INT_MAX ->
  fromColourSeq_get_uint8 (pre ++ run ++ m :: post) (Z.of_nat (length pre))
  = Some (1, Z.of_nat (length pre) + Z.of_nat (length run) + 1,
          shift_in (last_colour pre) 0 run)
  /\ fromColourSeq_get_uint8 (pre ++ run ++ m' :: post) (Z.of_nat (length pre))
     = fromColourSeq_get_uint8 (pre ++ run ++ m :: post)
         (Z.of_nat (length pre)).
Proof.
  intros Hm Hm' Hrun Hlen Hlast Hlast' Hmax.
  assert (Hone : forall c, is_mark c -> last_colour (pre ++ run) <> c ->
            fromColourSeq_get_uint8 (pre ++ run ++ c :: post)
              (Z.of_nat (length pre))
            = Some (1, Z.of_nat (length pre) + Z.of_nat (length run) + 1,
                    shift_in (last_colour pre) 0 run)).
  { intros c Hc Hne.
    assert (Hmax_c : Z.of_nat (length (pre ++ run ++ c :: post)) <= INT_MAX)
      by (revert Hmax; rewrite !length_app; simpl; lia).
    rewrite (fromColourSeq_get_uint8_run (S (4 - length run)))
      by (assumption || lia).
    rewrite fromColourSeq_loop_mark
      by (rewrite <- ?app_assoc; assumption || congruence).
    now rewrite length_app, Nat2Z.inj_add. }
  split; [now apply Hone |].
  now rewrite !Hone.
Qed.

Lemma marks_are_interchangeable_witness :
  fromColourSeq_get_uint8
    ([] ++ [GREEN; CYAN; BLUE; GREEN] ++ WHITE :: []) 0
  = Some (1, 0 + 4 + 1, 72)
  /\ fromColourSeq_get_uint8
       ([] ++ [GREEN; CYAN; BLUE; GREEN] ++ YELLOW :: []) 0
     = fromColourSeq_get_uint8
         ([] ++ [GREEN; CYAN; BLUE; GREEN] ++ WHITE :: []) 0.
Proof.
  apply (marks_are_interchangeable [] [GREEN; CYAN; BLUE; GREEN] []
           WHITE YELLOW).
  - now left.
  - now right.
  - simpl. repeat split; right; repeat constructor.
  - simpl. lia.
  - vm_compute. discriminate.
  - vm_compute. discriminate.
  - vm_compute. discriminate.
Defined.

(** C4, as the specification words it, fails: the budget of a call is not 8.
    On the buffer below the call gives up at cursor 5, one cell before a White
    that the same loop run for 8 iterations reaches. *)
Lemma framing_budget_is_not_8 :
  fromColourSeq_get_uint8
    [BLUE; BLUE; GREEN; CYAN; RED; WHITE; DARK; DARK] 0 = Some (0, 5, 0)
  /\ fromColourSeq_loop 8
       [BLUE; BLUE; GREEN; CYAN; RED; WHITE; DARK; DARK] 0 DARK 0
     = Some (1, 6, 0)
  /\ ~ transition_budget 8.
Proof.
  split; [reflexivity |]. split; [reflexivity |].
  intros Hbudget.
  destruct (Hbudget [BLUE; BLUE; GREEN; CYAN; RED; WHITE; DARK; DARK]
              0 0 5 0 eq_refl) as [_ Hk].
  specialize (Hk eq_refl). discriminate.
Qed.

(** C4, amended. A call examines at most 5 colours, and it returns 0 exactly 5
    colours behind its cursor.  When none of the 5 colours at the cursor is a
    mark the call does not succeed: it returns 0 or -1; and when that window
    only holds idle and data transitions it returns 0, which is neither 1
    (byte received) nor -1 (channel closed), with [*output] holding the bits
    shifted in. *)
Theorem framing_budget_is_5 (pre win post : list rgb_colour) :
  length win = 5%nat ->
  Z.of_nat (length (pre ++ win ++ post)) <= INT_MAX ->
  (forall c, c ∈ win -> ~ is_mark c) ->
  transition_budget 5
  /\ (exists return_code k output,
        fromColourSeq_get_uint8 (pre ++ win ++ post) (Z.of_nat (length pre))
        = Some (return_code, k, output)
        /\ (return_code = 0 \/ return_code = -1))
  /\ (keeps_scanning (last_colour pre) win ->
      fromColourSeq_get_uint8 (pre ++ win ++ post) (Z.of_nat (length pre))
      = Some (0, Z.of_nat (length pre) + 5, shift_in (last_colour pre) 0 win)).
Proof.
  intros Hlen Hmax Hwin. split; [| split].
  - intros colourSeq seq_ptr return_code k output.
    unfold fromColourSeq_get_uint8.
    destruct (if seq_ptr =? 0 then Some DARK else load colourSeq (seq_ptr - 1))
      as [p |]; [| discriminate].
    cbn [mbind option_bind]. intros Hloop.
    apply fromColourSeq_loop_budget in Hloop. lia.
  - destruct (fromColourSeq_loop_without_mark win pre post 0 Hwin Hmax)
      as (rc & k & output & Hloop & Hrc & _).
    exists rc, k, output. rewrite Hlen in Hloop.
    unfold fromColourSeq_get_uint8. rewrite load_previous.
    split; [exact Hloop | exact Hrc].
  - intros Hrun.
    rewrite (fromColourSeq_get_uint8_run 0) by (assumption || lia).
    cbn [fromColourSeq_loop]. rewrite length_app, Hlen.
    do 3 f_equal. lia.
Qed.

Lemma framing_budget_is_5_witness :
  transition_budget 5
  /\ (exists return_code k output,
        fromColourSeq_get_uint8
          ([] ++ [BLUE; BLUE; GREEN; CYAN; RED] ++ [WHITE; DARK; DARK]) 0
        = Some (return_code, k, output)
        /\ (return_code = 0 \/ return_code = -1))
  /\ (keeps_scanning DARK [BLUE; BLUE; GREEN; CYAN; RED] ->
      fromColourSeq_get_uint8
        ([] ++ [BLUE; BLUE; GREEN; CYAN; RED] ++ [WHITE; DARK; DARK]) 0
      = Some (0, 0 + 5, 0)).
Proof.
  apply (framing_budget_is_5 [] [BLUE; BLUE; GREEN; CYAN; RED]
           [WHITE; DARK; DARK]).
  - reflexivity.
  - vm_compute. discriminate.
  - intros c Hc [-> | ->];
      repeat (apply elem_of_cons in Hc as [Hc | Hc]; [discriminate |]);
      now apply elem_of_nil in Hc.
Defined.

(** * Further properties of the code *)

(** ** Single transitions *)

(** The five outcomes of one transition. *)
Lemma to_2bit_cases (c p : rgb_colour) (h : option Z) :
  exists return_code h',
    nextColourSeq_to_2bit c p h = (return_code, h')
    /\ ((return_code = -1 /\ c = p /\ h' = h)
        \/ (return_code = -2 /\ c = DARK /\ c <> p /\ h' = h)
        \/ (return_code = 1 /\ c = WHITE /\ c <> p /\ h' = h)
        \/ (return_code = 2 /\ c = YELLOW /\ c <> p /\ h' = h)
        \/ (return_code = 0 /\ is_data_colour c /\ c <> p
            /\ exists v, 0 <= v < 4 /\ h' = Some v)).
Proof.
  destruct (decide (c = p)) as [-> | Hne].
  { exists (-1), h. split; [| now left].
    unfold nextColourSeq_to_2bit. now rewrite decide_True. }
  destruct (colour_cases c) as [-> | [Hc | [-> | ->]]].
  - exists (-2), h. split; [| now right; left].
    destruct p; [contradiction | reflexivity ..].
  - destruct (to_2bit_data c p h Hc Hne) as (v & Hv & Hdec).
    exists 0, (Some v). split; [exact Hdec |].
    do 4 right. repeat (split; [assumption || reflexivity |]). now exists v.
  - exists 1, h. split; [| now right; right; left].
    destruct p; try contradiction; reflexivity.
  - exists 2, h. split; [| now right; right; right; left].
    destruct p; try contradiction; reflexivity.
Qed.

(** X1. The return code of [nextColourSeq_to_2bit] is decided by the two
    colours alone: -1 exactly when they are equal; otherwise -2 for Dark, 1 for
    White, 2 for Yellow, and 0 for a data colour.  [*halfnibble_out] is written
    only with return code 0, and then with a value below 4. *)
Theorem to_2bit_classification (c p : rgb_colour) (h : option Z) :
  exists return_code h',
    nextColourSeq_to_2bit c p h = (return_code, h')
    /\ ((return_code = -1 /\ c = p /\ h' = h)
        \/ (return_code = -2 /\ c = DARK /\ c <> p /\ h' = h)
        \/ (return_code = 1 /\ c = WHITE /\ c <> p /\ h' = h)
        \/ (return_code = 2 /\ c = YELLOW /\ c <> p /\ h' = h)
        \/ (return_code = 0 /\ is_data_colour c /\ c <> p
            /\ exists v, 0 <= v < 4 /\ h' = Some v)).
Proof.
  destruct (to_2bit_cases c p h) as (return_code & h' & Hcall & Hcases).
  now exists return_code, h'.
Qed.

(** X2. The colours the encoder can emit behind [p] are the data colours other
    than [p], except that Magenta is only emitted behind a data colour: at the
    start of a stream and behind a mark the encoder uses Blue, Green, Cyan and
    Red only. *)
Theorem from_2bit_image (p c : rgb_colour) :
  (exists v, 0 <= v < 4 /\ nextColourSeq_from_2bit v p = Some c)
  <-> is_data_colour c /\ c <> p /\ (c = MAGENTA -> is_data_colour p).
Proof.
  split.
  - intros (v & Hv & Hc).
    destruct (two_bit_cases v Hv) as [-> | [-> | [-> | ->]]];
      destruct p; vm_compute in Hc; injection Hc as <-;
      (split; [unfold is_data_colour, halfByteColour; repeat constructor |]);
      (split; [discriminate |]);
      intros; try discriminate;
      unfold is_data_colour, halfByteColour; repeat constructor.
  - intros (Hc & Hne & Hmag).
    destruct (data_colour_cases c Hc) as [-> | [-> | [-> | [-> | ->]]]];
      destruct p; try contradiction;
      try (specialize (Hmag eq_refl);
           apply data_colour_cases in Hmag;
           destruct Hmag as [? | [? | [? | [? | ?]]]]; discriminate);
      first [ exists 0; split; [lia | reflexivity]
            | exists 1; split; [lia | reflexivity]
            | exists 2; split; [lia | reflexivity]
            | exists 3; split; [lia | reflexivity] ].
Qed.

(** X3. Except for one alias the decoder inverts the encoder from the other
    side too: when a colour decodes to [v] behind [p], encoding [v] behind [p]
    gives that colour back, unless the colour is Magenta behind Dark or a mark,
    which decodes to 0 although the encoder emits Blue for 0 there. *)
Theorem to_2bit_then_from_2bit (c p : rgb_colour) (h : option Z) (v : Z) :
  nextColourSeq_to_2bit c p h = (0, Some v) ->
  nextColourSeq_from_2bit v p = Some c
  \/ (c = MAGENTA /\ ~ is_data_colour p /\ v = 0
      /\ nextColourSeq_from_2bit v p = Some BLUE).
Proof.
  intros Hdec.
  assert (Hnot : forall q, q = DARK \/ q = YELLOW \/ q = WHITE ->
                           ~ is_data_colour q).
  { intros q Hq Hdata. apply data_colour_cases in Hdata.
    destruct Hq as [-> | [-> | ->]];
      destruct Hdata as [? | [? | [? | [? | ?]]]]; discriminate. }
  destruct c, p; vm_compute in Hdec; try discriminate;
    injection Hdec as <-;
    first [ left; reflexivity
          | right; repeat (split; [reflexivity |]);
            split; [apply Hnot; tauto | split; reflexivity] ].
Qed.

Lemma to_2bit_then_from_2bit_witness :
  nextColourSeq_from_2bit 3 GREEN = Some BLUE
  \/ (BLUE = MAGENTA /\ ~ is_data_colour GREEN /\ 3 = 0
      /\ nextColourSeq_from_2bit 3 GREEN = Some BLUE).
Proof. apply (to_2bit_then_from_2bit BLUE GREEN None 3). reflexivity. Defined.

(** X4. Behind Dark, White or Yellow the decoder does not tell Magenta from
    Blue: both give return code 0 and the value 0. *)
Theorem to_2bit_magenta_alias (p : rgb_colour) (h : option Z) :
  ~ is_data_colour p ->
  nextColourSeq_to_2bit MAGENTA p h = (0, Some 0)
  /\ nextColourSeq_to_2bit BLUE p h = (0, Some 0).
Proof.
  intros Hp.
  destruct p; try (split; reflexivity);
    exfalso; apply Hp; unfold is_data_colour, halfByteColour;
    repeat constructor.
Qed.

Lemma to_2bit_magenta_alias_witness :
  nextColourSeq_to_2bit MAGENTA WHITE None = (0, Some 0)
  /\ nextColourSeq_to_2bit BLUE WHITE None = (0, Some 0).
Proof.
  apply (to_2bit_magenta_alias WHITE None).
  intros H. apply data_colour_cases in H.
  destruct H as [? | [? | [? | [? | ?]]]]; discriminate.
Defined.

(** X5. Behind a given colour, two arguments of the encoder give the same
    colour exactly when they agree modulo 4: the four two-bit values always
    get four different colours. *)
Theorem from_2bit_eq_iff (v v' : Z) (p : rgb_colour) :
  nextColourSeq_from_2bit v p = nextColourSeq_from_2bit v' p
  <-> v mod 4 = v' mod 4.
Proof.
  rewrite (from_2bit_masks v), (from_2bit_masks v'), !land_3_mod.
  split; [| now intros ->].
  assert (Hdigit : forall q, 0 <= q mod 4 < 4)
    by (intros q; apply Z.mod_pos_bound; lia).
  destruct (transition_table (v mod 4) p None (Hdigit v))
    as (c & Hc & _ & _ & Hd).
  destruct (transition_table (v' mod 4) p None (Hdigit v'))
    as (c' & Hc' & _ & _ & Hd').
  rewrite Hc, Hc'. intros [= <-].
  rewrite Hd in Hd'. now injection Hd'.
Qed.

(** ** The encoder and the room in the buffer *)

Section EncoderDomain.

Implicit Types (colourSeq pre old enc post : list rgb_colour).

Lemma store_Some colourSeq (i : Z) (c : rgb_colour) colourSeq' :
  store colourSeq i c = Some colourSeq' ->
  0 <= i < Z.of_nat (length colourSeq) /\ length colourSeq' = length colourSeq.
Proof.
  unfold store.
  destruct (0 <=? i) eqn:H0; [| discriminate].
  destruct (i <? Z.of_nat (length colourSeq)) eqn:H1; [| discriminate].
  simpl. intros [= <-]. rewrite length_insert. lia.
Qed.

Lemma int_incr_Some (j j' : Z) : int_incr j = Some j' -> j' = j + 1.
Proof. unfold int_incr. destruct (j <? INT_MAX); now intros [= <-]. Qed.

(** What a defined run of the data loop tells about cursor and buffer. *)
Lemma toColourSeq_loop_Some (n : nat) :
  forall (i input : Z) colourSeq (j : Z) (p : rgb_colour) colourSeq' (j' : Z),
    toColourSeq_loop n i input colourSeq j p = Some (colourSeq', j') ->
    j' = j + Z.of_nat n
    /\ length colourSeq' = length colourSeq
    /\ (n <> 0%nat -> 0 <= j /\ j + Z.of_nat n <= Z.of_nat (length colourSeq)).
Proof.
  induction n as [| n IH]; intros i input colourSeq j p colourSeq' j' Hloop.
  - injection Hloop as <- <-. split; [lia |]. split; [reflexivity | congruence].
  - cbn [toColourSeq_loop] in Hloop.
    destruct (nextColourSeq_from_2bit _ p) as [c |]; [| discriminate].
    cbn [mbind option_bind] in Hloop.
    destruct (store colourSeq j c) as [colourSeq1 |] eqn:Hstore;
      [| discriminate].
    cbn [mbind option_bind] in Hloop.
    destruct (load colourSeq1 j) as [c' |]; [| discriminate].
    cbn [mbind option_bind] in Hloop.
    destruct (int_incr j) as [j1 |] eqn:Hincr; [| discriminate].
    cbn [mbind option_bind] in Hloop.
    apply store_Some in Hstore as [Hj Hlen].
    apply int_incr_Some in Hincr as ->.
    apply IH in Hloop as (-> & Hlen' & Hroom).
    split; [lia |]. split; [congruence |]. intros _.
    destruct n as [| n]; [lia |].
    destruct Hroom as [_ Hroom]; [discriminate |]. lia.
Qed.

Lemma toColourSeq_uint8_Some (input : Z) colourSeq (seq_ptr : Z)
    colourSeq' (j' : Z) :
  toColourSeq_uint8 input colourSeq seq_ptr = Some (colourSeq', j') ->
  0 <= seq_ptr
  /\ seq_ptr + 5 <= Z.of_nat (length colourSeq)
  /\ j' = seq_ptr + 5
  /\ length colourSeq' = length colourSeq.
Proof.
  unfold toColourSeq_uint8. intros Hcall.
  destruct (if seq_ptr =? 0 then Some DARK else load colourSeq (seq_ptr - 1))
    as [p |]; [| discriminate].
  cbn [mbind option_bind] in Hcall.
  destruct (toColourSeq_loop 4 0 input colourSeq seq_ptr p)
    as [[colourSeq1 j1] |] eqn:Hloop; [| discriminate].
  cbn [mbind option_bind] in Hcall.
  destruct (store colourSeq1 j1 WHITE) as [colourSeq2 |] eqn:Hstore;
    [| discriminate].
  cbn [mbind option_bind] in Hcall.
  destruct (int_incr j1) as [j2 |] eqn:Hincr; [| discriminate].
  cbn [mbind option_bind] in Hcall. injection Hcall as <- <-.
  apply toColourSeq_loop_Some in Hloop as (-> & Hlen & Hroom).
  apply store_Some in Hstore as [Hj Hlen'].
  apply int_incr_Some in Hincr as ->.
  destruct Hroom as [H0 _]; [discriminate |].
  repeat split; lia || congruence.
Qed.

(** A buffer split at a cursor with room behind it. *)
Lemma split_at_cursor colourSeq (j : Z) (room : nat) :
  0 <= j -> j + Z.of_nat room <= Z.of_nat (length colourSeq) ->
  exists pre old post,
    colourSeq = pre ++ old ++ post
    /\ Z.of_nat (length pre) = j
    /\ length old = room
    /\ post = drop (Z.to_nat j + room) colourSeq.
Proof.
  intros Hj Hroom.
  exists (take (Z.to_nat j) colourSeq),
         (take room (drop (Z.to_nat j) colourSeq)),
         (drop (Z.to_nat j + room) colourSeq).
  split; [| split; [| split]].
  - rewrite <- drop_drop, !take_drop. reflexivity.
  - rewrite length_take. lia.
  - rewrite length_take, length_drop. lia.
  - reflexivity.
Qed.

End EncoderDomain.

Section EncodedStream.

Implicit Types (colourSeq pre old enc post : list rgb_colour) (inputs : list Z).

Lemma encode_bytes_Some inputs :
  forall colourSeq (j : Z) colourSeq' (j' : Z),
    encode_bytes inputs colourSeq j = Some (colourSeq', j') ->
    j' = j + 5 * Z.of_nat (length inputs)
    /\ length colourSeq' = length colourSeq
    /\ (inputs <> [] ->
        0 <= j /\ j + 5 * Z.of_nat (length inputs) <= Z.of_nat (length colourSeq)).
Proof.
  induction inputs as [| input inputs IH]; intros colourSeq j colourSeq' j' Henc.
  - injection Henc as <- <-. simpl. split; [lia |]. split; [reflexivity |].
    congruence.
  - cbn [encode_bytes] in Henc.
    destruct (toColourSeq_uint8 input colourSeq j) as [[colourSeq1 j1] |]
      eqn:Hcall; [| discriminate].
    cbn [mbind option_bind] in Henc.
    apply toColourSeq_uint8_Some in Hcall as (Hj & Hroom & -> & Hlen).
    apply IH in Henc as (-> & Hlen' & Hrest).
    cbn [length]. split; [lia |]. split; [congruence |]. intros _.
    destruct inputs as [| input' inputs]; [simpl; lia |].
    destruct Hrest as [_ Hrest]; [discriminate |].
    rewrite Hlen in Hrest. cbn [length] in *. lia.
Qed.

Lemma self_clocked_app (p : rgb_colour) enc enc' :
  self_clocked p enc ->
  self_clocked (last_colour (p :: enc)) enc' ->
  self_clocked p (enc ++ enc').
Proof.
  revert p. induction enc as [| c enc IH]; intros p Henc Henc'.
  - exact Henc'.
  - destruct Henc as (H1 & H2 & H3 & Henc).
    cbn [app self_clocked]. repeat (split; [assumption |]).
    apply IH; [assumption |].
    unfold last_colour in *. now rewrite last_cons_cons in Henc'.
Qed.

(** The colours written for one byte. *)
Lemma toColourSeq_uint8_self_clocked (p c0 c1 c2 c3 : rgb_colour) (input : Z) :
  nextColourSeq_from_2bit (input / 64 mod 4) p = Some c0 ->
  nextColourSeq_from_2bit (input / 16 mod 4) c0 = Some c1 ->
  nextColourSeq_from_2bit (input / 4 mod 4) c1 = Some c2 ->
  nextColourSeq_from_2bit (input mod 4) c2 = Some c3 ->
  self_clocked p [c0; c1; c2; c3; WHITE].
Proof.
  assert (Hdigit : forall q, 0 <= q mod 4 < 4)
    by (intros q; apply Z.mod_pos_bound; lia).
  assert (Hstep : forall v q c, nextColourSeq_from_2bit (v mod 4) q = Some c ->
            c <> q /\ c <> DARK /\ c <> YELLOW /\ c <> WHITE).
  { intros v q c Hc.
    destruct (transition_table (v mod 4) q None (Hdigit v))
      as (c' & Hc' & Hdata & Hne & _).
    rewrite Hc in Hc'. injection Hc' as <-.
    split; [exact Hne |].
    destruct (data_colour_cases c Hdata) as [-> | [-> | [-> | [-> | ->]]]];
      repeat split; discriminate. }
  intros H0 H1 H2 H3.
  apply Hstep in H0 as (? & ? & ? & ?). apply Hstep in H1 as (? & ? & ? & ?).
  apply Hstep in H2 as (? & ? & ? & ?). apply Hstep in H3 as (? & ? & ? & ?).
  cbn [self_clocked]. repeat split; auto; discriminate.
Qed.

Lemma encode_bytes_self_clocked inputs : forall pre old post,
  Forall is_byte inputs ->
  length old = (5 * length inputs)%nat ->
  Z.of_nat (length (pre ++ old ++ post)) <= INT_MAX ->
  exists enc,
    encode_bytes inputs (pre ++ old ++ post) (Z.of_nat (length pre))
    = Some (pre ++ enc ++ post,
            Z.of_nat (length pre) + 5 * Z.of_nat (length inputs))
    /\ length enc = (5 * length inputs)%nat
    /\ self_clocked (last_colour pre) enc
    /\ (inputs <> [] -> last enc = Some WHITE).
Proof.
  induction inputs as [| input inputs IH]; intros pre old post Hbytes Hold Hmax.
  - exists []. destruct old; [| discriminate].
    split; [simpl; do 2 f_equal; lia |]. split; [reflexivity |].
    split; [exact I | congruence].
  - inversion Hbytes as [| ? ? Hbyte Hbytes']; subst.
    rewrite <- (take_drop 5 old) in Hmax |- *.
    set (o5 := take 5 old) in *. set (old' := drop 5 old) in *.
    assert (Ho5 : length o5 = 5%nat)
      by (unfold o5; rewrite length_take; simpl in Hold; lia).
    assert (Hold' : length old' = (5 * length inputs)%nat)
      by (unfold old'; rewrite length_drop; simpl in Hold; lia).
    rewrite <- (app_assoc o5 old' post) in Hmax |- *.
    destruct (toColourSeq_uint8_writes input pre o5 (old' ++ post)
                Hbyte Ho5 Hmax)
      as (c0 & c1 & c2 & c3 & H0 & H1 & H2 & H3 & Henc).
    pose proof (toColourSeq_uint8_self_clocked _ _ _ _ _ _ H0 H1 H2 H3)
      as Hclock.
    set (e5 := [c0; c1; c2; c3; WHITE]) in *.
    assert (Hlen : Z.of_nat (length (pre ++ e5)) = Z.of_nat (length pre) + 5)
      by (rewrite length_app; simpl; lia).
    assert (Hlast : last_colour (pre ++ e5) = WHITE).
    { change e5 with ([c0; c1; c2; c3] ++ [WHITE]).
      rewrite app_assoc. apply last_colour_snoc. }
    destruct (IH (pre ++ e5) old' post Hbytes' Hold')
      as (enc' & Hrest & Hlen' & Hclock' & Hlast').
    { revert Hmax. rewrite !length_app. unfold e5. simpl length. lia. }
    exists (e5 ++ enc'). split; [| split; [| split]].
    + cbn [encode_bytes]. rewrite Henc. cbn [mbind option_bind].
      rewrite <- Hlen, (app_assoc pre e5), Hrest.
      rewrite <- !app_assoc. do 2 f_equal.
      rewrite Hlen. simpl length. lia.
    + rewrite length_app, Hlen'. unfold e5. simpl length. lia.
    + apply self_clocked_app; [exact Hclock |].
      rewrite Hlast in Hclock'. exact Hclock'.
    + intros _. destruct inputs as [| input' inputs].
      * destruct enc'; [| discriminate]. reflexivity.
      * rewrite last_app, Hlast' by discriminate. reflexivity.
Qed.

End EncodedStream.

(** X6. [toColourSeq_uint8] makes no bounds check: on a byte it is defined
    exactly when the cursor is not negative and five cells lie behind it (the
    96th cell is the last start in a buffer of 100).  When it is defined the
    cursor has advanced by 5 and the buffer has kept its length. *)
Theorem toColourSeq_uint8_defined_iff (input : Z)
    (colourSeq : list rgb_colour) (seq_ptr : Z) :
  is_byte input ->
  Z.of_nat (length colourSeq) <= INT_MAX ->
  (is_Some (toColourSeq_uint8 input colourSeq seq_ptr)
   <-> 0 <= seq_ptr /\ seq_ptr + 5 <= Z.of_nat (length colourSeq))
  /\ (forall colourSeq' j',
        toColourSeq_uint8 input colourSeq seq_ptr = Some (colourSeq', j') ->
        j' = seq_ptr + 5 /\ length colourSeq' = length colourSeq).
Proof.
  intros Hbyte Hmax. split; [split |].
  - intros [[colourSeq' j'] Hcall].
    apply toColourSeq_uint8_Some in Hcall. tauto.
  - intros [Hj Hroom].
    destruct (split_at_cursor colourSeq seq_ptr 5 Hj Hroom)
      as (pre & old & post & -> & <- & Hold & _).
    destruct (toColourSeq_uint8_writes input pre old post Hbyte Hold Hmax)
      as (c0 & c1 & c2 & c3 & _ & _ & _ & _ & ->).
    eauto.
  - intros colourSeq' j' Hcall.
    apply toColourSeq_uint8_Some in Hcall. tauto.
Qed.

Lemma toColourSeq_uint8_defined_iff_witness :
  (is_Some (toColourSeq_uint8 72 (replicate 100 DARK) 96)
   <-> 0 <= 96 /\ 96 + 5 <= Z.of_nat (length (replicate 100 DARK)))
  /\ (forall colourSeq' j',
        toColourSeq_uint8 72 (replicate 100 DARK) 96 = Some (colourSeq', j') ->
        j' = 96 + 5 /\ length colourSeq' = length (replicate 100 DARK)).
Proof.
  apply (toColourSeq_uint8_defined_iff 72 (replicate 100 DARK) 96).
  - unfold is_byte. lia.
  - vm_compute. discriminate.
Defined.

(** X7. Capacity: a run of calls of the encoder from a cursor inside the
    buffer is defined exactly when the buffer has five cells per byte behind
    that cursor; a buffer of 100 cells takes 20 bytes from cursor 0 and the
    21st call runs over its end. *)
Theorem encode_bytes_capacity (inputs : list Z) (colourSeq : list rgb_colour)
    (j : Z) :
  Forall is_byte inputs ->
  0 <= j <= Z.of_nat (length colourSeq) ->
  Z.of_nat (length colourSeq) <= INT_MAX ->
  is_Some (encode_bytes inputs colourSeq j)
  <-> j + 5 * Z.of_nat (length inputs) <= Z.of_nat (length colourSeq).
Proof.
  intros Hbytes Hj Hmax. split.
  - intros [[colourSeq' j'] Henc].
    apply encode_bytes_Some in Henc as (_ & _ & Hroom).
    destruct inputs as [| input inputs]; [simpl; lia |].
    destruct Hroom; [discriminate | assumption].
  - intros Hroom.
    destruct (split_at_cursor colourSeq j (5 * length inputs))
      as (pre & old & post & -> & <- & Hold & _); [lia | lia |].
    destruct (encode_bytes_self_clocked inputs pre old post Hbytes Hold Hmax)
      as (enc & -> & _).
    eauto.
Qed.

Lemma encode_bytes_capacity_witness :
  is_Some (encode_bytes [72; 73; 74] (replicate 12 DARK) 0)
  <-> 0 + 5 * Z.of_nat (length [72; 73; 74])
      <= Z.of_nat (length (replicate 12 DARK)).
Proof.
  apply (encode_bytes_capacity [72; 73; 74] (replicate 12 DARK) 0).
  - repeat constructor; unfold is_byte; lia.
  - simpl. lia.
  - vm_compute. discriminate.
Defined.

(** X8. The colours a run of calls of the encoder writes are self-clocking:
    each differs from the colour before it (the first from the colour before
    the cursor, Dark at cursor 0), none is Dark or Yellow, and the last one is
    White. *)
Theorem encoded_stream_is_self_clocked (inputs : list Z)
    (pre old post : list rgb_colour) :
  Forall is_byte inputs ->
  length old = (5 * length inputs)%nat ->
  Z.of_nat (length (pre ++ old ++ post)) <= INT_MAX ->
  exists enc,
    encode_bytes inputs (pre ++ old ++ post) (Z.of_nat (length pre))
    = Some (pre ++ enc ++ post,
            Z.of_nat (length pre) + 5 * Z.of_nat (length inputs))
    /\ self_clocked (last_colour pre) enc
    /\ (inputs <> [] -> last enc = Some WHITE).
Proof.
  intros Hbytes Hold Hmax.
  destruct (encode_bytes_self_clocked inputs pre old post Hbytes Hold Hmax)
    as (enc & Henc & _ & Hclock & Hlast).
  now exists enc.
Qed.

Lemma encoded_stream_is_self_clocked_witness :
  exists enc,
    encode_bytes [0; 255] ([] ++ replicate 10 DARK ++ [DARK]) 0
    = Some ([] ++ enc ++ [DARK], 0 + 5 * 2)
    /\ self_clocked DARK enc
    /\ ([0; 255] <> [] -> last enc = Some WHITE).
Proof.
  apply (encoded_stream_is_self_clocked [0; 255] [] (replicate 10 DARK) [DARK]).
  - repeat constructor; unfold is_byte; lia.
  - reflexivity.
  - vm_compute. discriminate.
Defined.

(** ** Every byte has one codeword *)

Section Codeword.

Implicit Types (colourSeq pre old enc post cw : list rgb_colour).

(** Dark and the two marks rotate the data cycle by the same amount. *)
Lemma from_2bit_at_boundary (v : Z) (p : rgb_colour) :
  ~ is_data_colour p ->
  nextColourSeq_from_2bit v p = nextColourSeq_from_2bit v DARK.
Proof.
  intros Hp.
  destruct p; try reflexivity;
    exfalso; apply Hp; unfold is_data_colour, halfByteColour;
    repeat constructor.
Qed.

Lemma not_data_colour_boundary (p : rgb_colour) :
  p = DARK \/ is_mark p -> ~ is_data_colour p.
Proof.
  intros Hp Hdata. apply data_colour_cases in Hdata.
  destruct Hp as [-> | [-> | ->]];
    destruct Hdata as [? | [? | [? | [? | ?]]]]; discriminate.
Qed.

Lemma codeword_digits (input : Z) :
  is_byte input ->
  exists c0 c1 c2 c3,
    nextColourSeq_from_2bit (input / 64 mod 4) DARK = Some c0
    /\ nextColourSeq_from_2bit (input / 16 mod 4) c0 = Some c1
    /\ nextColourSeq_from_2bit (input / 4 mod 4) c1 = Some c2
    /\ nextColourSeq_from_2bit (input mod 4) c2 = Some c3
    /\ codeword input = Some [c0; c1; c2; c3; WHITE].
Proof.
  intros Hbyte.
  destruct (toColourSeq_uint8_writes input [] (replicate 5 DARK) [] Hbyte)
    as (c0 & c1 & c2 & c3 & H0 & H1 & H2 & H3 & Hcall);
    [reflexivity | vm_compute; discriminate |].
  exists c0, c1, c2, c3. repeat (split; [assumption |]).
  unfold codeword.
  change (replicate 5 DARK) with ([] ++ replicate 5 DARK ++ []).
  change 0 with (Z.of_nat (length (@nil rgb_colour))).
  now rewrite Hcall.
Qed.

(** At a byte boundary the encoder writes the codeword of the byte. *)
Lemma toColourSeq_uint8_codeword (input : Z) pre old post :
  is_byte input ->
  length old = 5%nat ->
  Z.of_nat (length (pre ++ old ++ post)) <= INT_MAX ->
  ~ is_data_colour (last_colour pre) ->
  exists cw,
    codeword input = Some cw
    /\ length cw = 5%nat
    /\ last_colour (pre ++ cw) = WHITE
    /\ toColourSeq_uint8 input (pre ++ old ++ post) (Z.of_nat (length pre))
       = Some (pre ++ cw ++ post, Z.of_nat (length pre) + 5).
Proof.
  intros Hbyte Hold Hmax Hp.
  destruct (codeword_digits input Hbyte)
    as (c0 & c1 & c2 & c3 & H0 & H1 & H2 & H3 & Hcw).
  destruct (toColourSeq_uint8_writes input pre old post Hbyte Hold Hmax)
    as (d0 & d1 & d2 & d3 & G0 & G1 & G2 & G3 & Hcall).
  rewrite (from_2bit_at_boundary _ _ Hp), H0 in G0. injection G0 as <-.
  rewrite H1 in G1. injection G1 as <-.
  rewrite H2 in G2. injection G2 as <-.
  rewrite H3 in G3. injection G3 as <-.
  exists [c0; c1; c2; c3; WHITE].
  split; [exact Hcw |]. split; [reflexivity |]. split; [| exact Hcall].
  change [c0; c1; c2; c3; WHITE] with ([c0; c1; c2; c3] ++ [WHITE]).
  rewrite app_assoc. apply last_colour_snoc.
Qed.

Lemma encode_bytes_codewords (inputs : list Z) : forall pre old post,
  Forall is_byte inputs ->
  length old = (5 * length inputs)%nat ->
  Z.of_nat (length (pre ++ old ++ post)) <= INT_MAX ->
  ~ is_data_colour (last_colour pre) ->
  exists cws,
    codewords inputs = Some cws
    /\ length cws = (5 * length inputs)%nat
    /\ encode_bytes inputs (pre ++ old ++ post) (Z.of_nat (length pre))
       = Some (pre ++ cws ++ post,
               Z.of_nat (length pre) + 5 * Z.of_nat (length inputs)).
Proof.
  induction inputs as [| input inputs IH];
    intros pre old post Hbytes Hold Hmax Hp.
  - exists []. destruct old; [| discriminate].
    split; [reflexivity |]. split; [reflexivity |].
    simpl. do 2 f_equal. lia.
  - inversion Hbytes as [| ? ? Hbyte Hbytes']; subst.
    rewrite <- (take_drop 5 old) in Hmax |- *.
    set (o5 := take 5 old) in *. set (old' := drop 5 old) in *.
    assert (Ho5 : length o5 = 5%nat)
      by (unfold o5; rewrite length_take; simpl in Hold; lia).
    assert (Hold' : length old' = (5 * length inputs)%nat)
      by (unfold old'; rewrite length_drop; simpl in Hold; lia).
    rewrite <- (app_assoc o5 old' post) in Hmax |- *.
    destruct (toColourSeq_uint8_codeword input pre o5 (old' ++ post)
                Hbyte Ho5 Hmax Hp) as (cw & Hcw & Hlen & Hlast & Hcall).
    destruct (IH (pre ++ cw) old' post Hbytes' Hold')
      as (cws & Hcws & Hlen' & Hrest).
    { revert Hmax. rewrite !length_app, Hlen, Ho5. lia. }
    { rewrite Hlast. apply not_data_colour_boundary. right. now left. }
    exists (cw ++ cws). split; [| split].
    + cbn [codewords]. now rewrite Hcw, Hcws.
    + rewrite length_app, Hlen, Hlen'. simpl length. lia.
    + cbn [encode_bytes]. rewrite Hcall. cbn [mbind option_bind].
      replace (Z.of_nat (length pre) + 5) with (Z.of_nat (length (pre ++ cw)))
        by (rewrite length_app, Hlen; lia).
      rewrite (app_assoc pre cw), Hrest.
      rewrite <- !app_assoc. do 2 f_equal.
      rewrite length_app, Hlen. simpl length. lia.
Qed.

End Codeword.

(** X9. The encoder is a block code on streams it starts itself: from a cursor
    that stands at the start of the buffer or behind a mark, a run of calls
    writes the concatenation of the codewords of the bytes, where the codeword
    of a byte is what one call writes for it at cursor 0.  What a byte looks
    like does not depend on the bytes sent before it. *)
Theorem encode_bytes_is_block_code (inputs : list Z)
    (pre old post : list rgb_colour) :
  Forall is_byte inputs ->
  length old = (5 * length inputs)%nat ->
  Z.of_nat (length (pre ++ old ++ post)) <= INT_MAX ->
  last_colour pre = DARK \/ is_mark (last_colour pre) ->
  exists cws,
    codewords inputs = Some cws
    /\ encode_bytes inputs (pre ++ old ++ post) (Z.of_nat (length pre))
       = Some (pre ++ cws ++ post,
               Z.of_nat (length pre) + 5 * Z.of_nat (length inputs)).
Proof.
  intros Hbytes Hold Hmax Hp.
  apply not_data_colour_boundary in Hp.
  destruct (encode_bytes_codewords inputs pre old post Hbytes Hold Hmax Hp)
    as (cws & Hcws & _ & Henc).
  now exists cws.
Qed.

Lemma encode_bytes_is_block_code_witness :
  exists cws,
    codewords [72; 72] = Some cws
    /\ encode_bytes [72; 72] ([RED; YELLOW] ++ replicate 10 DARK ++ []) 2
       = Some ([RED; YELLOW] ++ cws ++ [], 2 + 5 * 2).
Proof.
  apply (encode_bytes_is_block_code [72; 72] [RED; YELLOW]
           (replicate 10 DARK) []).
  - repeat constructor; unfold is_byte; lia.
  - reflexivity.
  - vm_compute. discriminate.
  - right. now right.
Defined.

(** X10. Every byte has a codeword of five colours, the decoder reads the
    codeword back as that byte, and so two different bytes never share a
    codeword. *)
Theorem codeword_decodes_and_is_injective (input input' : Z) :
  is_byte input -> is_byte input' ->
  (exists cw,
      codeword input = Some cw
      /\ length cw = 5%nat
      /\ fromColourSeq_get_uint8 cw 0 = Some (1, 5, input))
  /\ (codeword input = codeword input' -> input = input').
Proof.
  assert (Hone : forall b, is_byte b ->
            exists cw, codeword b = Some cw /\ length cw = 5%nat
                       /\ fromColourSeq_get_uint8 cw 0 = Some (1, 5, b)).
  { intros b Hb.
    destruct (codeword_digits b Hb)
      as (c0 & c1 & c2 & c3 & H0 & H1 & H2 & H3 & Hcw).
    exists [c0; c1; c2; c3; WHITE].
    split; [exact Hcw |]. split; [reflexivity |].
    apply (fromColourSeq_get_uint8_encoded b [] c0 c1 c2 c3 []); auto.
    vm_compute. discriminate. }
  intros Hbyte Hbyte'. split; [now apply Hone |].
  destruct (Hone input Hbyte) as (cw & Hcw & _ & Hdec).
  destruct (Hone input' Hbyte') as (cw' & Hcw' & _ & Hdec').
  rewrite Hcw, Hcw'. intros [= <-].
  rewrite Hdec in Hdec'. now injection Hdec'.
Qed.

Lemma codeword_decodes_and_is_injective_witness :
  (exists cw,
      codeword 72 = Some cw
      /\ length cw = 5%nat
      /\ fromColourSeq_get_uint8 cw 0 = Some (1, 5, 72))
  /\ (codeword 72 = codeword 73 -> 72 = 73).
Proof.
  apply (codeword_decodes_and_is_injective 72 73); unfold is_byte; lia.
Defined.

(** ** What a call of the decoder can return *)

Section DecoderResult.

Implicit Types (colourSeq pre win run post : list rgb_colour)
  (c p : rgb_colour).

Lemma load_Some colourSeq (i : Z) c :
  load colourSeq i = Some c -> 0 <= i < Z.of_nat (length colourSeq).
Proof.
  unfold load. destruct (0 <=? i) eqn:Hi; [| discriminate].
  intros Hc. apply lookup_lt_Some in Hc. lia.
Qed.

Lemma uint8_range (z : Z) : 0 <= uint8 z < 256.
Proof. unfold uint8. apply Z.mod_pos_bound. lia. Qed.

Lemma fromColourSeq_loop_Some (n : nat) :
  forall colourSeq (seq_ptr : Z) p (output return_code k output' : Z),
    0 <= output < 256 ->
    fromColourSeq_loop n colourSeq seq_ptr p output
    = Some (return_code, k, output') ->
    0 <= output' < 256
    /\ seq_ptr <= k <= seq_ptr + Z.of_nat n
    /\ (n <> 0%nat -> 0 <= seq_ptr < k /\ k <= Z.of_nat (length colourSeq))
    /\ ((return_code = 0 /\ k = seq_ptr + Z.of_nat n)
        \/ (return_code = 1
            /\ exists m, is_mark m /\ load colourSeq (k - 1) = Some m)
        \/ (return_code = -1 /\ load colourSeq (k - 1) = Some DARK)).
Proof.
  induction n as [| n IH];
    intros colourSeq seq_ptr p output return_code k output' Hout Hloop.
  - injection Hloop as <- <- <-.
    split; [assumption |]. split; [lia |]. split; [congruence |].
    left. split; [reflexivity | lia].
  - cbn [fromColourSeq_loop] in Hloop.
    destruct (load colourSeq seq_ptr) as [c |] eqn:Hload; [| discriminate].
    cbn [mbind option_bind] in Hloop.
    destruct (to_2bit_cases c p None) as (rc & h' & Hcall & Hcases).
    rewrite Hcall in Hloop.
    destruct (int_incr seq_ptr) as [k1 |] eqn:Hincr; [| discriminate].
    apply int_incr_Some in Hincr as ->.
    cbn [mbind option_bind] in Hloop.
    pose proof (load_Some _ _ _ Hload) as Hin.
    assert (Hrec : forall output1, 0 <= output1 < 256 ->
              fromColourSeq_loop n colourSeq (seq_ptr + 1) c output1
              = Some (return_code, k, output') ->
              0 <= output' < 256
              /\ seq_ptr <= k <= seq_ptr + Z.of_nat (S n)
              /\ (S n <> 0%nat ->
                  0 <= seq_ptr < k /\ k <= Z.of_nat (length colourSeq))
              /\ ((return_code = 0 /\ k = seq_ptr + Z.of_nat (S n))
                  \/ (return_code = 1
                      /\ exists m, is_mark m
                                   /\ load colourSeq (k - 1) = Some m)
                  \/ (return_code = -1
                      /\ load colourSeq (k - 1) = Some DARK))).
    { intros output1 Hout1 Hrest.
      apply IH in Hrest as (Hout' & Hk & Hroom & Hcode); [| assumption].
      split; [assumption |]. split; [lia |]. split.
      - intros _. destruct n as [| n]; [lia |].
        destruct Hroom; [discriminate | lia].
      - destruct Hcode as [[-> ->] | Hcode]; [left; split; [reflexivity | lia] |].
        right. exact Hcode. }
    assert (Hstop : forall code, code = 1 \/ code = -1 ->
              (code = 1 -> is_mark c) -> (code = -1 -> c = DARK) ->
              Some (code, seq_ptr + 1, output) = Some (return_code, k, output') ->
              0 <= output' < 256
              /\ seq_ptr <= k <= seq_ptr + Z.of_nat (S n)
              /\ (S n <> 0%nat ->
                  0 <= seq_ptr < k /\ k <= Z.of_nat (length colourSeq))
              /\ ((return_code = 0 /\ k = seq_ptr + Z.of_nat (S n))
                  \/ (return_code = 1
                      /\ exists m, is_mark m
                                   /\ load colourSeq (k - 1) = Some m)
                  \/ (return_code = -1
                      /\ load colourSeq (k - 1) = Some DARK))).
    { intros code Hcode Hmark Hdark [= <- <- <-].
      replace (seq_ptr + 1 - 1) with seq_ptr by lia.
      split; [assumption |]. split; [lia |]. split; [lia |].
      destruct Hcode as [-> | ->]; right.
      - left. split; [reflexivity |]. exists c. split; [now apply Hmark | exact Hload].
      - right. split; [reflexivity |]. now rewrite <- Hdark. }
    destruct Hcases as [(-> & _ & ->) | [(-> & -> & _ & ->) |
                        [(-> & -> & _ & ->) | [(-> & -> & _ & ->) |
                        (-> & _ & _ & v & Hv & ->)]]]];
      cbn in Hloop.
    + now apply (Hrec output).
    + apply (Hstop (-1)); auto; try discriminate.
    + apply (Hstop 1); auto; try discriminate. intros _. now left.
    + apply (Hstop 1); auto; try discriminate. intros _. now right.
    + eapply Hrec; [| exact Hloop]. apply uint8_range.
Qed.

End DecoderResult.

Section DecoderWindow.

Implicit Types (colourSeq pre win run post : list rgb_colour)
  (c p : rgb_colour).

(** The loop only looks at the colour before the cursor and at the colours
    from the cursor on. *)
Lemma fromColourSeq_loop_local win :
  forall pre pre' post post' (output : Z),
    last_colour pre = last_colour pre' ->
    Z.of_nat (length (pre ++ win ++ post)) <= INT_MAX ->
    Z.of_nat (length (pre' ++ win ++ post')) <= INT_MAX ->
    exists return_code d output',
      (win <> [] -> 1 <= d)
      /\ 0 <= d <= Z.of_nat (length win)
      /\ fromColourSeq_loop (length win) (pre ++ win ++ post)
           (Z.of_nat (length pre)) (last_colour pre) output
         = Some (return_code, Z.of_nat (length pre) + d, output')
      /\ fromColourSeq_loop (length win) (pre' ++ win ++ post')
           (Z.of_nat (length pre')) (last_colour pre') output
         = Some (return_code, Z.of_nat (length pre') + d, output').
Proof.
  induction win as [| c win IH];
    intros pre pre' post post' output Hlast Hmax Hmax'.
  - exists 0, 0, output. cbn [length fromColourSeq_loop].
    split; [congruence |]. split; [lia |].
    split; do 3 f_equal; lia.
  - cbn [length app].
    rewrite !fromColourSeq_loop_step by assumption.
    rewrite <- Hlast.
    assert (Hk : forall l : list rgb_colour,
              Z.of_nat (length (l ++ [c])) = Z.of_nat (length l) + 1)
      by (intros l; rewrite length_app; simpl; lia).
    destruct (IH (pre ++ [c]) (pre' ++ [c]) post post')
      with (output := output) as (rc1 & d1 & out1 & _ & Hd1 & Hrun1 & Hrun1');
      [now rewrite !last_colour_snoc | now rewrite <- app_assoc
      | now rewrite <- app_assoc |].
    destruct (to_2bit_cases c (last_colour pre) None)
      as (rc & h' & -> & Hcases).
    rewrite !last_colour_snoc in Hrun1, Hrun1'.
    destruct Hcases as [(-> & _ & ->) | [(-> & -> & _ & ->) |
                        [(-> & -> & _ & ->) | [(-> & -> & _ & ->) |
                        (-> & _ & _ & v & Hv & ->)]]]];
      cbn zeta iota beta.
    + exists rc1, (d1 + 1), out1. rewrite Hrun1, Hrun1', !Hk.
      split; [lia |]. split; [lia |]. split; do 3 f_equal; lia.
    + exists (-1), 1, output. rewrite !Hk.
      split; [lia |]. split; [lia |]. split; reflexivity.
    + exists 1, 1, output. rewrite !Hk.
      split; [lia |]. split; [lia |]. split; reflexivity.
    + exists 1, 1, output. rewrite !Hk.
      split; [lia |]. split; [lia |]. split; reflexivity.
    + destruct (IH (pre ++ [c]) (pre' ++ [c]) post post')
        with (output := uint8 (Z.lor (uint8 (Z.shiftl output 2)) v))
        as (rc2 & d2 & out2 & _ & Hd2 & Hrun2 & Hrun2');
        [now rewrite !last_colour_snoc | now rewrite <- app_assoc
        | now rewrite <- app_assoc |].
      rewrite !last_colour_snoc in Hrun2, Hrun2'.
      exists rc2, (d2 + 1), out2. rewrite Hrun2, Hrun2', !Hk.
      split; [lia |]. split; [lia |]. split; do 3 f_equal; lia.
Qed.

Lemma shift_one_idle p (output : Z) : shift_one p output p = output.
Proof.
  unfold shift_one, nextColourSeq_to_2bit. now rewrite decide_True.
Qed.

Lemma shift_in_idle (n : nat) p (output : Z) :
  shift_in p output (replicate n p) = output.
Proof.
  induction n as [| n IH]; [reflexivity |].
  cbn [replicate shift_in]. now rewrite shift_one_idle.
Qed.

Lemma keeps_scanning_idle (n : nat) p : keeps_scanning p (replicate n p).
Proof. induction n as [| n IH]; simpl; auto. Qed.

Lemma fromColourSeq_get_uint8_idle pre post :
  Z.of_nat (length (pre ++ replicate 5 (last_colour pre) ++ post)) <= INT_MAX ->
  fromColourSeq_get_uint8 (pre ++ replicate 5 (last_colour pre) ++ post)
    (Z.of_nat (length pre))
  = Some (0, Z.of_nat (length pre) + 5, 0).
Proof.
  intros Hmax.
  rewrite (fromColourSeq_get_uint8_run 0);
    [| apply keeps_scanning_idle | reflexivity | assumption].
  cbn [fromColourSeq_loop]. rewrite shift_in_idle, length_app.
  do 3 f_equal. simpl length. lia.
Qed.

End DecoderWindow.

(** X11. Whatever a call of [fromColourSeq_get_uint8] returns, the return code
    is 1, 0 or -1, the byte in [*output] is below 256, the cursor has moved
    forward by at least one and at most five cells, all of them inside the
    buffer.  Code 0 comes with the cursor five cells on; code 1 with a mark in
    the last cell read; code -1 with Dark in the last cell read. *)
Theorem fromColourSeq_get_uint8_result (colourSeq : list rgb_colour)
    (seq_ptr return_code k output : Z) :
  fromColourSeq_get_uint8 colourSeq seq_ptr = Some (return_code, k, output) ->
  0 <= output < 256
  /\ 0 <= seq_ptr < k
  /\ k <= seq_ptr + 5
  /\ k <= Z.of_nat (length colourSeq)
  /\ ((return_code = 0 /\ k = seq_ptr + 5)
      \/ (return_code = 1
          /\ exists m, is_mark m /\ load colourSeq (k - 1) = Some m)
      \/ (return_code = -1 /\ load colourSeq (k - 1) = Some DARK)).
Proof.
  unfold fromColourSeq_get_uint8.
  destruct (if seq_ptr =? 0 then Some DARK else load colourSeq (seq_ptr - 1))
    as [p |]; [| discriminate].
  cbn [mbind option_bind]. intros Hloop.
  apply fromColourSeq_loop_Some in Hloop as (Hout & Hk & Hroom & Hcode);
    [| lia].
  destruct Hroom as [Hptr Hlen]; [discriminate |].
  split; [assumption |]. split; [assumption |]. split; [lia |].
  split; [assumption |].
  destruct Hcode as [[-> ->] | Hcode];
    [left; split; [reflexivity | lia] | right; exact Hcode].
Qed.

Lemma fromColourSeq_get_uint8_result_witness :
  0 <= 7 < 256
  /\ 0 <= 0 < 3
  /\ 3 <= 0 + 5
  /\ 3 <= Z.of_nat (length [GREEN; BLUE; YELLOW; RED])
  /\ ((1 = 0 /\ 3 = 0 + 5)
      \/ (1 = 1
          /\ exists m, is_mark m
                       /\ load [GREEN; BLUE; YELLOW; RED] (3 - 1) = Some m)
      \/ (1 = -1 /\ load [GREEN; BLUE; YELLOW; RED] (3 - 1) = Some DARK)).
Proof.
  apply (fromColourSeq_get_uint8_result [GREEN; BLUE; YELLOW; RED] 0 1 3 7).
  reflexivity.
Defined.

(** X12. With five cells at the cursor a call is always defined, and its result
    depends on nothing but these five colours and the colour before the cursor:
    two buffers that agree on them give the same return code, the same advance
    and the same byte. *)
Theorem fromColourSeq_get_uint8_local
    (pre pre' win post post' : list rgb_colour) :
  length win = 5%nat ->
  last_colour pre = last_colour pre' ->
  Z.of_nat (length (pre ++ win ++ post)) <= INT_MAX ->
  Z.of_nat (length (pre' ++ win ++ post')) <= INT_MAX ->
  exists return_code d output,
    1 <= d <= 5
    /\ fromColourSeq_get_uint8 (pre ++ win ++ post) (Z.of_nat (length pre))
       = Some (return_code, Z.of_nat (length pre) + d, output)
    /\ fromColourSeq_get_uint8 (pre' ++ win ++ post') (Z.of_nat (length pre'))
       = Some (return_code, Z.of_nat (length pre') + d, output).
Proof.
  intros Hwin Hlast Hmax Hmax'.
  destruct (fromColourSeq_loop_local win pre pre' post post' 0 Hlast Hmax Hmax')
    as (rc & d & out & Hd1 & Hd5 & Hrun & Hrun').
  exists rc, d, out. rewrite Hwin in *.
  unfold fromColourSeq_get_uint8. rewrite !load_previous.
  split; [| split; assumption].
  split; [| lia]. apply Hd1. destruct win; discriminate.
Qed.

Lemma fromColourSeq_get_uint8_local_witness :
  exists return_code d output,
    1 <= d <= 5
    /\ fromColourSeq_get_uint8
         ([RED; WHITE] ++ [GREEN; CYAN; BLUE; GREEN; WHITE] ++ []) 2
       = Some (return_code, 2 + d, output)
    /\ fromColourSeq_get_uint8
         ([WHITE] ++ [GREEN; CYAN; BLUE; GREEN; WHITE] ++ [DARK]) 1
       = Some (return_code, 1 + d, output).
Proof.
  apply (fromColourSeq_get_uint8_local [RED; WHITE] [WHITE]
           [GREEN; CYAN; BLUE; GREEN; WHITE] [] [DARK]).
  - reflexivity.
  - reflexivity.
  - vm_compute. discriminate.
  - vm_compute. discriminate.
Defined.

(** X13. An idle line: when the five cells at the cursor all repeat the colour
    before the cursor (five Dark cells at cursor 0 of a cleared buffer, say)
    the call returns 0 with the cursor five cells on and 0 in [*output]. *)
Theorem idle_line_gives_up (pre post : list rgb_colour) :
  Z.of_nat (length (pre ++ replicate 5 (last_colour pre) ++ post)) <= INT_MAX ->
  fromColourSeq_get_uint8 (pre ++ replicate 5 (last_colour pre) ++ post)
    (Z.of_nat (length pre))
  = Some (0, Z.of_nat (length pre) + 5, 0).
Proof. intros Hmax. now apply fromColourSeq_get_uint8_idle. Qed.

Lemma idle_line_gives_up_witness :
  fromColourSeq_get_uint8 ([] ++ replicate 5 DARK ++ [DARK; DARK]) 0
  = Some (0, 0 + 5, 0).
Proof.
  apply (idle_line_gives_up [] [DARK; DARK]). vm_compute. discriminate.
Defined.

(** ** A sample taken twice, and the end of a transmission *)

Section Stutter.

Implicit Types (colourSeq pre a b run post : list rgb_colour)
  (c p : rgb_colour).

Lemma shift_in_stutter a c b : forall p (output : Z),
  shift_in p output (a ++ c :: c :: b) = shift_in p output (a ++ c :: b).
Proof.
  induction a as [| x a IH]; intros p output.
  - cbn [app shift_in]. now rewrite shift_one_idle.
  - cbn [app shift_in]. apply IH.
Qed.

Lemma keeps_scanning_stutter a c b : forall p,
  keeps_scanning p (a ++ c :: b) -> keeps_scanning p (a ++ c :: c :: b).
Proof.
  induction a as [| x a IH]; intros p.
  - cbn [app keeps_scanning]. tauto.
  - cbn [app keeps_scanning]. intros [Hx Hrun]. split; [exact Hx |].
    now apply IH.
Qed.

Lemma last_stutter a c b : last (a ++ c :: c :: b) = last (a ++ c :: b).
Proof. now rewrite !last_app, last_cons_cons. Qed.

(** The four data colours of an encoded byte, seen from the decoder. *)
Lemma encoded_run (input : Z) p (c0 c1 c2 c3 : rgb_colour) :
  is_byte input ->
  nextColourSeq_from_2bit (input / 64 mod 4) p = Some c0 ->
  nextColourSeq_from_2bit (input / 16 mod 4) c0 = Some c1 ->
  nextColourSeq_from_2bit (input / 4 mod 4) c1 = Some c2 ->
  nextColourSeq_from_2bit (input mod 4) c2 = Some c3 ->
  keeps_scanning p [c0; c1; c2; c3]
  /\ is_data_colour c3
  /\ shift_in p 0 [c0; c1; c2; c3] = input.
Proof.
  intros Hbyte H0 H1 H2 H3.
  assert (Hdigit : forall q, 0 <= q mod 4 < 4)
    by (intros q; apply Z.mod_pos_bound; lia).
  assert (Hdata : forall v q c, nextColourSeq_from_2bit (v mod 4) q = Some c ->
            is_data_colour c).
  { intros v q c Hc.
    destruct (transition_table (v mod 4) q None (Hdigit v))
      as (c' & Hc' & Hd & _).
    rewrite Hc in Hc'. now injection Hc' as <-. }
  assert (Hrun : keeps_scanning p [c0; c1; c2; c3])
    by (simpl; repeat split; right; eapply Hdata; eassumption).
  split; [exact Hrun |]. split; [eapply Hdata; eassumption |].
  pose proof (fromColourSeq_get_uint8_encoded input [p] c0 c1 c2 c3 []
                Hbyte H0 H1 H2 H3) as Hdec.
  change ([c0; c1; c2; c3; WHITE] ++ [])
    with ([c0; c1; c2; c3] ++ WHITE :: []) in Hdec.
  rewrite (fromColourSeq_get_uint8_run 1) in Hdec;
    [| exact Hrun | reflexivity | vm_compute; discriminate].
  rewrite fromColourSeq_loop_mark in Hdec; cycle 1.
  { vm_compute. discriminate. }
  { now left. }
  { change (last_colour ([p] ++ [c0; c1; c2; c3])) with c3.
    intros <-. apply Hdata, data_colour_cases in H3.
    destruct H3 as [? | [? | [? | [? | ?]]]]; discriminate. }
  specialize (Hdec ltac:(vm_compute; discriminate)).
  now injection Hdec.
Qed.

Lemma decode_bytes_received_app (inputs : list Z) :
  forall colourSeq (k : Z) (m : nat),
    decode_bytes (length inputs) colourSeq k = Some (received k inputs) ->
    decode_bytes (length inputs + m) colourSeq k
    = rest ← decode_bytes m colourSeq (k + 5 * Z.of_nat (length inputs));
      Some (received k inputs ++ rest).
Proof.
  induction inputs as [| input inputs IH]; intros colourSeq k m Hdec.
  - cbn [length Nat.add received app].
    replace (k + 5 * Z.of_nat 0) with k by lia.
    now destruct (decode_bytes m colourSeq k).
  - cbn [length Nat.add decode_bytes received] in Hdec |- *.
    destruct (fromColourSeq_get_uint8 colourSeq k) as [[[rc k1] out] |];
      [| discriminate].
    cbn [mbind option_bind] in Hdec |- *.
    destruct (decode_bytes (length inputs) colourSeq k1) as [calls |] eqn:Hrest;
      [| discriminate].
    cbn [mbind option_bind] in Hdec. injection Hdec as -> -> -> ->.
    rewrite (IH _ _ m Hrest).
    replace (k + 5 + 5 * Z.of_nat (length inputs))
      with (k + 5 * Z.of_nat (S (length inputs))) by lia.
    now destruct (decode_bytes m colourSeq _).
Qed.

End Stutter.

(** X14. The byte reader does not tolerate a sample taken twice.  When one of
    the four data colours of a byte's codeword appears twice in a row, the
    call that reads the byte uses up its five iterations before the mark: it
    returns 0, although [*output] holds the byte, and the next call meets the
    mark at once and returns 1 with the byte 0. *)
Theorem duplicated_sample_loses_byte (input : Z)
    (pre a b post : list rgb_colour) (c : rgb_colour) :
  is_byte input ->
  last_colour pre = DARK \/ is_mark (last_colour pre) ->
  codeword input = Some (a ++ c :: b ++ [WHITE]) ->
  Z.of_nat (length (pre ++ (a ++ c :: c :: b) ++ WHITE :: post)) <= INT_MAX ->
  fromColourSeq_get_uint8 (pre ++ (a ++ c :: c :: b) ++ WHITE :: post)
    (Z.of_nat (length pre))
  = Some (0, Z.of_nat (length pre) + 5, input)
  /\ fromColourSeq_get_uint8 (pre ++ (a ++ c :: c :: b) ++ WHITE :: post)
       (Z.of_nat (length pre) + 5)
     = Some (1, Z.of_nat (length pre) + 6, 0).
Proof.
  intros Hbyte Hp Hcw Hmax.
  apply not_data_colour_boundary in Hp.
  destruct (codeword_digits input Hbyte)
    as (c0 & c1 & c2 & c3 & H0 & H1 & H2 & H3 & Hcw').
  rewrite Hcw in Hcw'. injection Hcw' as Hrun.
  change [c0; c1; c2; c3; WHITE] with ([c0; c1; c2; c3] ++ [WHITE]) in Hrun.
  change (a ++ c :: b ++ [WHITE]) with (a ++ (c :: b) ++ [WHITE]) in Hrun.
  rewrite app_assoc in Hrun. apply app_inj_tail in Hrun as [Hrun _].
  rewrite <- (from_2bit_at_boundary _ _ Hp) in H0.
  destruct (encoded_run input (last_colour pre) c0 c1 c2 c3
              Hbyte H0 H1 H2 H3) as (Hscan & Hc3 & Hshift).
  rewrite <- Hrun in Hscan, Hshift.
  assert (Hlen : length (a ++ c :: c :: b) = 5%nat).
  { apply (f_equal length) in Hrun. revert Hrun.
    rewrite !length_app. simpl. lia. }
  assert (Hlast : last_colour (pre ++ a ++ c :: c :: b) = c3).
  { unfold last_colour. rewrite last_app, last_stutter, Hrun. reflexivity. }
  split.
  - rewrite (fromColourSeq_get_uint8_run 0);
      [| now apply keeps_scanning_stutter | now rewrite Hlen | exact Hmax].
    cbn [fromColourSeq_loop]. rewrite shift_in_stutter, Hshift.
    rewrite length_app, Hlen. do 3 f_equal. lia.
  - rewrite app_assoc in Hmax |- *.
    replace (Z.of_nat (length pre) + 5)
      with (Z.of_nat (length (pre ++ a ++ c :: c :: b)))
      by (rewrite length_app, Hlen; lia).
    change (WHITE :: post) with ([] ++ WHITE :: post) in Hmax |- *.
    rewrite (fromColourSeq_get_uint8_run 5); [| exact I | reflexivity | exact Hmax].
    change ([] ++ WHITE :: post) with (WHITE :: post) in Hmax.
    rewrite !app_nil_r.
    rewrite fromColourSeq_loop_mark; [| exact Hmax | now left |].
    + cbn [shift_in]. rewrite length_app, Hlen. do 3 f_equal. lia.
    + rewrite Hlast. intros <-. apply data_colour_cases in Hc3.
      destruct Hc3 as [? | [? | [? | [? | ?]]]]; discriminate.
Qed.

Lemma duplicated_sample_loses_byte_witness :
  fromColourSeq_get_uint8
    ([] ++ ([GREEN] ++ CYAN :: CYAN :: [BLUE; GREEN]) ++ WHITE :: [DARK]) 0
  = Some (0, 0 + 5, 72)
  /\ fromColourSeq_get_uint8
       ([] ++ ([GREEN] ++ CYAN :: CYAN :: [BLUE; GREEN]) ++ WHITE :: [DARK])
       (0 + 5)
     = Some (1, 0 + 6, 0).
Proof.
  apply (duplicated_sample_loses_byte 72 [] [GREEN] [BLUE; GREEN] [DARK] CYAN).
  - unfold is_byte. lia.
  - now left.
  - reflexivity.
  - vm_compute. discriminate.
Defined.

(** X15. The end of a transmission in a cleared buffer: after the bytes written
    from cursor 0 have been read back, the next call sees Dark behind the last
    mark and returns -1 one cell further with the byte 0, and only the call
    after that, on five Dark cells, returns 0. *)
Theorem end_of_transmission (inputs : list Z) (room : nat) :
  Forall is_byte inputs ->
  inputs <> [] ->
  (6 <= room)%nat ->
  Z.of_nat (5 * length inputs + room) <= INT_MAX ->
  exists colourSeq',
    encode_bytes inputs (replicate (5 * length inputs + room) DARK) 0
    = Some (colourSeq', 5 * Z.of_nat (length inputs))
    /\ decode_bytes (length inputs + 2) colourSeq' 0
       = Some (received 0 inputs
               ++ [(-1, 5 * Z.of_nat (length inputs) + 1, 0);
                   (0, 5 * Z.of_nat (length inputs) + 6, 0)]).
Proof.
  intros Hbytes Hne Hroom Hmax.
  set (n := (5 * length inputs)%nat) in *.
  assert (Hmax0 : Z.of_nat (length ([] ++ replicate n DARK
                                       ++ replicate room DARK)) <= INT_MAX)
    by (cbn [app]; rewrite length_app, !length_replicate; lia).
  destruct (encode_bytes_decode_bytes inputs [] (replicate n DARK)
              (replicate room DARK) Hbytes) as (enc & Hlen & Henc & Hdec);
    [apply length_replicate | exact Hmax0 |].
  destruct (encode_bytes_self_clocked inputs [] (replicate n DARK)
              (replicate room DARK) Hbytes) as (enc2 & Henc2 & _ & _ & Hlast);
    [apply length_replicate | exact Hmax0 |].
  rewrite Henc in Henc2. injection Henc2 as Heq.
  apply app_inv_tail in Heq as <-.
  specialize (Hlast Hne).
  rewrite length_replicate in Hlen.
  assert (Hmax1 : Z.of_nat (length (enc ++ replicate room DARK)) <= INT_MAX)
    by (rewrite length_app, length_replicate; lia).
  cbn [app length] in Henc, Hdec.
  change (Z.of_nat 0) with 0 in Henc, Hdec.
  rewrite replicate_add.
  exists (enc ++ replicate room DARK). split; [exact Henc |].
  rewrite (decode_bytes_received_app inputs _ 0 2 (Hdec _ Hmax1)).
  assert (Hcells : replicate room DARK
                   = [DARK] ++ replicate 5 DARK ++ replicate (room - 6) DARK).
  { change [DARK] with (replicate 1 DARK).
    rewrite <- !replicate_add. f_equal. lia. }
  assert (Hcursor : 0 + 5 * Z.of_nat (length inputs) = Z.of_nat (length enc))
    by lia.
  rewrite Hcursor, Hcells. rewrite Hcells in Hmax1.
  assert (Hlast_enc : last_colour enc = WHITE)
    by (unfold last_colour; now rewrite Hlast).
  cbn [decode_bytes].
  (* the call behind the last mark *)
  change ([DARK] ++ replicate 5 DARK ++ replicate (room - 6) DARK)
    with ([] ++ DARK :: replicate 5 DARK ++ replicate (room - 6) DARK)
    in Hmax1 |- *.
  rewrite (fromColourSeq_get_uint8_run 5 enc []);
    [| exact I | reflexivity | exact Hmax1].
  cbn [app] in Hmax1. rewrite !app_nil_r.
  rewrite fromColourSeq_loop_down;
    [| exact Hmax1 | rewrite Hlast_enc; discriminate].
  cbn [mbind option_bind shift_in].
  (* the call on five Dark cells *)
  pose proof (fromColourSeq_get_uint8_idle (enc ++ [DARK])
                (replicate (room - 6) DARK)) as Hidle.
  rewrite last_colour_snoc, <- app_assoc in Hidle. cbn [app] in Hidle.
  replace (Z.of_nat (length enc) + 1)
    with (Z.of_nat (length (enc ++ [DARK])))
    by (rewrite length_app; simpl; lia).
  cbn [app]. rewrite Hidle by exact Hmax1.
  cbn [mbind option_bind]. do 2 f_equal.
  rewrite length_app. simpl length. subst n.
  replace (Z.of_nat (length enc + 1))
    with (5 * Z.of_nat (length inputs) + 1) by lia.
  replace (5 * Z.of_nat (length inputs) + 1 + 5)
    with (5 * Z.of_nat (length inputs) + 6) by lia.
  reflexivity.
Qed.

Lemma end_of_transmission_witness :
  exists colourSeq',
    encode_bytes [72; 73] (replicate (5 * length [72; 73] + 6) DARK) 0
    = Some (colourSeq', 5 * Z.of_nat (length [72; 73]))
    /\ decode_bytes (length [72; 73] + 2) colourSeq' 0
       = Some (received 0 [72; 73]
               ++ [(-1, 5 * Z.of_nat (length [72; 73]) + 1, 0);
                   (0, 5 * Z.of_nat (length [72; 73]) + 6, 0)]).
Proof.
  apply (end_of_transmission [72; 73] 6).
  - repeat constructor; unfold is_byte; lia.
  - discriminate.
  - lia.
  - vm_compute. discriminate.
Defined.

(** ** The bitflag macros *)

Section Bitflags.

Lemma bit_mask_Some (b : Z) : 0 <= b < 32 -> bit_mask b = Some (2 ^ b).
Proof.
  intros Hb. unfold bit_mask.
  rewrite (proj2 (Z.leb_le _ _)), (proj2 (Z.ltb_lt _ _)) by lia.
  cbn [andb]. rewrite Z.shiftl_1_l. unfold uint32.
  change 4294967296 with (2 ^ 32).
  rewrite Z.mod_small; [reflexivity |].
  split; [apply Z.pow_nonneg; lia | apply Z.pow_lt_mono_r; lia].
Qed.

(** An [unsigned int] has no bits from position 32 on. *)
Lemma uint32_high_bits (v i : Z) :
  0 <= v < 2 ^ 32 -> 32 <= i -> Z.testbit v i = false.
Proof.
  intros Hv Hi. rewrite <- (Z.mod_small v (2 ^ 32)) by exact Hv.
  rewrite Z.testbit_mod_pow2 by lia.
  now rewrite (proj2 (Z.ltb_ge _ _)) by lia.
Qed.

Lemma uint32_testbit (z i : Z) :
  Z.testbit (uint32 z) i = (i <? 32) && Z.testbit z i.
Proof.
  unfold uint32. change 4294967296 with (2 ^ 32).
  apply Z.testbit_mod_pow2. lia.
Qed.

End Bitflags.

Ltac bitflags v Hv :=
  apply Z.bits_inj'; intros ? ?;
  match goal with
  | |- Z.testbit _ ?i = Z.testbit _ ?i =>
      repeat first
        [ rewrite uint32_testbit | rewrite Z.land_spec | rewrite Z.lor_spec
        | rewrite Z.lxor_spec | rewrite Z.lnot_spec by lia
        | rewrite Z.pow2_bits_eqb by lia | rewrite Z.bits_0 ];
      repeat match goal with
             | |- context [?b =? i] => destruct (Z.eqb_spec b i)
             end;
      destruct (Z.ltb_spec i 32);
      try lia;
      try rewrite (uint32_high_bits v i Hv) by lia;
      destruct (Z.testbit v i); reflexivity
  end.

(** X16. On an [unsigned int] and a bit position below 32: after [SETBIT] the
    bit reads as set ([GETBIT] gives the mask [2^b], not 0), after [CLRBIT] it
    reads as 0, and [TOGBIT] applied twice gives back the variable. *)
Theorem bitflag_set_clear_toggle (v b : Z) :
  0 <= v < 2 ^ 32 -> 0 <= b < 32 ->
  (exists v', SETBIT v b = Some v' /\ 0 <= v' < 2 ^ 32
              /\ GETBIT v' b = Some (2 ^ b))
  /\ (exists v', CLRBIT v b = Some v' /\ 0 <= v' < 2 ^ 32
                 /\ GETBIT v' b = Some 0)
  /\ (exists v', TOGBIT v b = Some v' /\ 0 <= v' < 2 ^ 32
                 /\ TOGBIT v' b = Some v).
Proof.
  intros Hv Hb.
  assert (Hrange : forall z, 0 <= uint32 z < 2 ^ 32)
    by (intros z; unfold uint32; apply Z.mod_pos_bound; lia).
  unfold SETBIT, CLRBIT, TOGBIT, GETBIT.
  rewrite (bit_mask_Some b Hb). cbn [mbind option_bind].
  split; [| split]; eexists; (split; [reflexivity |]);
    (split; [apply Hrange |]); f_equal.
  - bitflags v Hv.
  - bitflags v Hv.
  - bitflags v Hv.
Qed.

Lemma bitflag_set_clear_toggle_witness :
  (exists v', SETBIT 5 1 = Some v' /\ 0 <= v' < 2 ^ 32
              /\ GETBIT v' 1 = Some (2 ^ 1))
  /\ (exists v', CLRBIT 5 1 = Some v' /\ 0 <= v' < 2 ^ 32
                 /\ GETBIT v' 1 = Some 0)
  /\ (exists v', TOGBIT 5 1 = Some v' /\ 0 <= v' < 2 ^ 32
                 /\ TOGBIT v' 1 = Some 5).
Proof. apply (bitflag_set_clear_toggle 5 1); lia. Defined.

(** X17. [SETBIT], [CLRBIT] and [TOGBIT] at one position leave what [GETBIT]
    reads at every other position unchanged. *)
Theorem bitflag_other_bits (v b b' : Z) :
  0 <= v < 2 ^ 32 -> 0 <= b < 32 -> 0 <= b' < 32 -> b <> b' ->
  exists s c t,
    SETBIT v b = Some s /\ CLRBIT v b = Some c /\ TOGBIT v b = Some t
    /\ GETBIT s b' = GETBIT v b'
    /\ GETBIT c b' = GETBIT v b'
    /\ GETBIT t b' = GETBIT v b'.
Proof.
  intros Hv Hb Hb' Hne.
  unfold SETBIT, CLRBIT, TOGBIT, GETBIT.
  rewrite (bit_mask_Some b Hb), (bit_mask_Some b' Hb').
  cbn [mbind option_bind].
  eexists _, _, _. repeat (split; [reflexivity |]).
  split; [| split]; f_equal.
  - bitflags v Hv.
  - bitflags v Hv.
  - bitflags v Hv.
Qed.

Lemma bitflag_other_bits_witness :
  exists s c t,
    SETBIT 5 1 = Some s /\ CLRBIT 5 1 = Some c /\ TOGBIT 5 1 = Some t
    /\ GETBIT s 2 = GETBIT 5 2
    /\ GETBIT c 2 = GETBIT 5 2
    /\ GETBIT t 2 = GETBIT 5 2.
Proof. apply (bitflag_other_bits 5 1 2); lia. Defined.

(** ** The test tools *)

(** X18. Each of the three name tables has an entry for each of the eight
    colours, and no two colours share an entry, so a printed sequence names
    its colours without ambiguity.  The short name is the first letter of the
    long name and the middle one of the three characters of the marked
    name. *)
Theorem colour_tables_name_each_colour (c d : rgb_colour) :
  exists long short marked,
    colour_string rgb_colour_str c = Some long
    /\ colour_string rgb_colour_short_str c = Some short
    /\ colour_string rgb_colour_short_marked_str c = Some marked
    /\ String.substring 0 1 long = short
    /\ String.length marked = 3%nat
    /\ String.substring 1 1 marked = short
    /\ (colour_string rgb_colour_str d = Some long -> d = c)
    /\ (colour_string rgb_colour_short_str d = Some short -> d = c)
    /\ (colour_string rgb_colour_short_marked_str d = Some marked -> d = c).
Proof.
  destruct c; eexists _, _, _;
    repeat (split; [reflexivity |]);
    (split; [| split]); destruct d; intros [=]; reflexivity.
Qed.

Section DisplayBinary.

(** A property decided on each of the 256 bytes holds of every byte. *)
Lemma byte_cases (P : Z -> Prop) `{!forall x, Decision (P x)} :
  Forall P (seqZ 0 256) -> forall x, is_byte x -> P x.
Proof.
  intros Hall x Hx. rewrite Forall_forall in Hall.
  apply Hall, elem_of_seqZ. unfold is_byte in Hx. lia.
Qed.

Lemma displayBinary_loop_value (input : Z) :
  is_byte input ->
  binary_value 0 (displayBinary_loop 8 input) = Some input.
Proof.
  revert input. apply byte_cases; [apply _ |].
  apply (bool_decide_unpack _). vm_compute. exact I.
Qed.

End DisplayBinary.

(** X19. [displayBinary_uint8_t] returns its argument, and between the header
    and the final newline it prints exactly eight digits, each by one call of
    [printf] with the format "0" or "1", that spell the argument in binary,
    most significant bit first. *)
Theorem displayBinary_uint8_t_prints_the_byte (input : Z) :
  is_byte input ->
  exists digits,
    displayBinary_uint8_t input
    = (Printf " %x '%c' = " [input; input]
         :: digits ++ [Printf (String (Ascii.ascii_of_nat 10) EmptyString) []],
       input)
    /\ length digits = 8%nat
    /\ binary_value 0 digits = Some input.
Proof.
  intros Hbyte. exists (displayBinary_loop 8 input).
  split; [reflexivity |]. split; [reflexivity |].
  now apply displayBinary_loop_value.
Qed.

Lemma displayBinary_uint8_t_prints_the_byte_witness :
  exists digits,
    displayBinary_uint8_t 72
    = (Printf " %x '%c' = " [72; 72]
         :: digits ++ [Printf (String (Ascii.ascii_of_nat 10) EmptyString) []],
       72)
    /\ length digits = 8%nat
    /\ binary_value 0 digits = Some 72.
Proof.
  apply (displayBinary_uint8_t_prints_the_byte 72). unfold is_byte. lia.
Defined.
